(** * typed-fetch router: a shallow embedding of [Router], [handle] and [route]

    Source: [src/packages/typed-response/src/index.ts] (the router half of the
    file, lines 212-424).

    Conventions of the embedding.
    - JavaScript strings that the router inspects (HTTP methods, URL paths,
      route patterns) are [string]s; [split] and [toLowerCase] are written
      out below.
    - An object used as a record of fields (the handler context, what a
      plugin returns) is a [gmap string Value]: its own properties.
    - A call that may throw is a [Completion]; an awaited promise is described
      by how and when it settles ([Promise]).  A plugin or handler whose
      promise never settles leaves the dispatch pending; such runs are outside
      this model.
    - Every run carries a ghost trace of the calls it performed, so that
      statements such as "the matcher is not invoked" can be written down. *)

From Stdlib Require Import String Ascii.
From stdpp Require Import gmap strings list fin_maps.
From stdpp Require Import pretty.

Local Open Scope string_scope.
Local Open Scope list_scope.

(** ** Strings *)

Module Text.

(** [s.split(sep)] for a one-character separator: never the empty list,
    [""] splits into [[""]]. *)
Fixpoint split (sep : ascii) (s : string) : list string :=
  match s with
  | EmptyString => [EmptyString]
  | String c s' =>
      if Ascii.eqb c sep then EmptyString :: split sep s'
      else match split sep s' with
           | hd :: tl => String c hd :: tl
           | [] => [String c EmptyString]
           end
  end.

(** [parts.join(sep)] *)
Fixpoint join (sep : string) (parts : list string) : string :=
  match parts with
  | [] => EmptyString
  | [p] => p
  | p :: (_ :: _) as rest => String.append p (String.append sep (join sep rest))
  end.

Definition lower_ascii (c : ascii) : ascii :=
  let n := nat_of_ascii c in
  if Nat.leb 65 n && Nat.leb n 90 then ascii_of_nat (n + 32) else c.

(** [s.toLowerCase()] on the ASCII range, which is all an HTTP method token
    can contain. *)
Fixpoint toLowerCase (s : string) : string :=
  match s with
  | EmptyString => EmptyString
  | String c s' => String (lower_ascii c) (toLowerCase s')
  end.

End Text.

(** ** The pattern matcher [match] of [./match.js] *)

Module Match.

Inductive PatternSegment :=
| Literal (text : string)
| Capture (name : string)
| Wildcard.

Definition classify (p : string) : PatternSegment :=
  match p with
  | String ":" name => Capture name
  | _ => Literal p
  end.

(** Modelled from the spec: the segment kinds of section 3 ("Pattern
    Segment"); [./match.js] is not part of the sources.  A segment is a
    wildcard when it is the trailing segment and reads [*], a named capture
    when it starts with [:], a literal otherwise. *)
Fixpoint compile_segments (ps : list string) : list PatternSegment :=
  match ps with
  | [] => []
  | [p] => if String.eqb p "*" then [Wildcard] else [classify p]
  | p :: (_ :: _) as ps' => classify p :: compile_segments ps'
  end.

Definition ends_in_wildcard (pattern : list PatternSegment) : bool :=
  match last pattern with
  | Some Wildcard => true
  | _ => false
  end.

(** Modelled from the spec: the left-to-right walk of section 4.1; the
    function of [./match.js] is missing from the sources.  A literal needs
    an equal path segment, a named capture binds a non-empty path segment
    (last write wins), the wildcard binds the remaining segments re-joined
    with [/] under the name [*] and ends the walk. *)
Fixpoint walk (pattern : list PatternSegment) (path : list string)
    (acc : gmap string string) : option (gmap string string) :=
  match pattern, path with
  | Wildcard :: _, rest => Some (<["*" := Text.join "/" rest]> acc)
  | [], [] => Some acc
  | [], _ :: _ => None
  | _ :: _, [] => None
  | Literal l :: ps, x :: xs =>
      if String.eqb l x then walk ps xs acc else None
  | Capture n :: ps, x :: xs =>
      if String.eqb x "" then None else walk ps xs (<[n := x]> acc)
  end.

(** Modelled from the spec: the length comparison that section 4.1 puts
    before the walk; the function of [./match.js] is missing from the
    sources.  Without a wildcard the lengths must be equal; with one the
    path must cover the prefix before the wildcard. *)
Definition matcher (pattern : list PatternSegment) (path : list string)
    : option (gmap string string) :=
  if ends_in_wildcard pattern then
    if Nat.ltb (length path) (length pattern - 1) then None
    else walk pattern path ∅
  else
    if Nat.eqb (length path) (length pattern) then walk pattern path ∅
    else None.

(** [match(segments, patternSegments)], with the argument order of the call
    in [route]. *)
Definition match_ (segments patternSegments : list string)
    : option (gmap string string) :=
  matcher (compile_segments patternSegments) segments.

End Match.

(** ** Platform values: [Response], [URL], [Request] *)

Record Response := {
  status : nat;
  headers : list (string * string);
  body : option string
}.

(** [new Response(body, { status })].  A string body brings its content type
    with it; a [null] body brings no header. *)
Definition new_Response (b : option string) (code : nat) : Response :=
  {| status := code;
     headers := match b with
                | Some _ => [("content-type", "text/plain;charset=UTF-8")]
                | None => []
                end;
     body := b |}.

Record URL := { href : string; pathname : string }.

(** What the router reads of a [Request]: its method and its URL.  The URL of
    a [Request] is always a serialised URL, so [new URL(request.url)] does not
    throw. *)
Record Request := { method : string; url : string }.

(** [type Method = "get" | "post" | "put" | "delete" | "patch" | "all"] *)
Module Verb.
Inductive Method := get | post | put | delete | patch | all.

(** The property name under which the proxy receives the registration. *)
Definition name (m : Method) : string :=
  match m with
  | get => "get" | post => "post" | put => "put"
  | delete => "delete" | patch => "patch" | all => "all"
  end.
End Verb.

(** ** Completions, promises and traced runs *)

Section Effects.
(** [Any]: JavaScript values the router never looks into. *)
Context {Any : Type}.

(** A thrown value, as the [catch] clause of [handle] tells them apart. *)
Inductive Thrown :=
| ThrownResponse (r : Response)   (* err instanceof Response *)
| ThrownError (message : string)  (* err instanceof Error *)
| ThrownOther (v : Any).

Inductive Completion (A : Type) :=
| Normal (a : A)
| Abrupt (t : Thrown).

Inductive Settled (A : Type) :=
| Fulfilled (a : A)
| Rejected (t : Thrown).

(** A promise that settles; [settles_at] orders the settlements of the
    promises of one dispatch in time. *)
Record Promise (A : Type) := { settles_at : nat; outcome : Settled A }.

(** A run: the calls made so far, and how the run completed. *)
Definition Run (E A : Type) : Type := list E * Completion A.

End Effects.

Arguments Thrown : clear implicits.
Arguments Completion : clear implicits.
Arguments Settled : clear implicits.
Arguments Promise : clear implicits.
Arguments Run : clear implicits.
Arguments Normal {Any A} a.
Arguments Abrupt {Any A} t.
Arguments Fulfilled {Any A} a.
Arguments Rejected {Any A} t.
Arguments settles_at {Any A} p.
Arguments outcome {Any A} p.

Section RunMonad.
Context {Any E : Type}.

#[export] Instance run_ret : MRet (Run Any E) := λ A a, ([], Normal a).

#[export] Instance run_bind : MBind (Run Any E) := λ A B k m,
  match m with
  | (tr, Normal a) => let '(tr', c) := k a in (tr ++ tr', c)
  | (tr, Abrupt t) => (tr, Abrupt t)
  end.

Definition throw {A} (t : Thrown Any) : Run Any E A := ([], Abrupt t).

(** Ghost: record a call. *)
Definition tell (e : E) : Run Any E unit := ([e], Normal tt).

(** A call whose completion is known. *)
Definition call {A} (c : Completion Any A) : Run Any E A := ([], c).

(** [await p] *)
Definition await {A} (p : Promise Any A) : Run Any E A :=
  match outcome p with
  | Fulfilled a => mret a
  | Rejected t => throw t
  end.

(** [try { m } catch (err) { h err }] *)
Definition try_catch {A} (m : Run Any E A) (h : Thrown Any → Run Any E A)
    : Run Any E A :=
  match m with
  | (tr, Normal a) => (tr, Normal a)
  | (tr, Abrupt t) => let '(tr', c) := h t in (tr ++ tr', c)
  end.

End RunMonad.

Definition trace {Any E A} (m : Run Any E A) : list E := m.1.
Definition completion {Any E A} (m : Run Any E A) : Completion Any A := m.2.

(** Events of another run, labelled. *)
Definition tag {Any E F A} (f : E → F) (m : Run Any E A) : Run Any F A :=
  (f <$> m.1, m.2).

(** ** [Promise.all] *)

Section PromiseAll.
Context {Any A : Type}.

(** The rejection that settles first; of two that settle at the same
    instant, the one declared first. *)
Fixpoint earliest_rejection (ps : list (Promise Any A))
    : option (nat * Thrown Any) :=
  match ps with
  | [] => None
  | p :: ps' =>
      match outcome p, earliest_rejection ps' with
      | Fulfilled _, r => r
      | Rejected t, None => Some (settles_at p, t)
      | Rejected t, Some (n', t') =>
          if Nat.leb (settles_at p) n' then Some (settles_at p, t)
          else Some (n', t')
      end
  end.

Definition fulfilled_value (p : Promise Any A) : option A :=
  match outcome p with
  | Fulfilled a => Some a
  | Rejected _ => None
  end.

(** [Promise.all(ps)]: rejects as soon as one of [ps] rejects, with that
    reason; otherwise fulfils, once all have, with the values in the order
    of [ps]. *)
Definition Promise_all (ps : list (Promise Any A)) : Promise Any (list A) :=
  match earliest_rejection ps with
  | Some (n, t) => {| settles_at := n; outcome := Rejected t |}
  | None =>
      {| settles_at := foldr Nat.max 0 (settles_at <$> ps);
         outcome := Fulfilled (omap fulfilled_value ps) |}
  end.

End PromiseAll.

(** ** The router *)

Section Router.
(** [Any]: opaque JavaScript values.  [Env]: everything outside the request
    that a plugin or a handler may read when it runs (stores, clock, ...);
    the router itself never looks at it.  [Rest]: the [REST_ARGS] passed
    through [handle] to the handler. *)
Context {Any Env Rest : Type}.

(** [new URL(s)], the platform's URL parser. *)
Variable new_URL : string → URL.

(** [match] of [./match.js]: the captured parameters, or [None] for its
    [null]. *)
Variable match_ : list string → list string → option (gmap string string).

(** Values held by the fields of a handler context. *)
Inductive Value :=
| VParams (params : gmap string string)
| VUrl (u : URL)
| VRequest (r : Request)
| VAny (a : Any).

(** What a plugin yields: [AnyResponse] or [Record<string, any>]. *)
Inductive PluginResult :=
| PResponse (r : Response)
| PFields (fields : gmap string Value).

(** [type Plugin]: [p(request)] either throws or returns a value or a
    promise; a plain value is a promise already fulfilled. *)
Definition Plugin : Type :=
  Env → Request → Completion Any (Promise Any PluginResult).

(** [type RouteHandler]: [h(context, ...rest)] returns (a promise of) a
    response, or throws (or its promise rejects).  The type has no [null]:
    a handler cannot pass the request on to a later route. *)
Definition Handler : Type :=
  Env → gmap string Value → Rest → Completion Any Response.

(** Calls made by one route. *)
Inductive Event :=
| EvMatch                                  (* match(segments, patternSegments) *)
| EvPlugin (j : nat)                       (* p(request), p the j-th plugin *)
| EvHandler (context : gmap string Value). (* h(context, ...rest) *)

(** Calls made by [handle]: route [i] is called, or route [i] makes a
    call. *)
Inductive DispatchEvent :=
| EvRoute (i : nat)
| EvIn (i : nat) (e : Event).

(** [type Route] *)
Definition Route : Type :=
  Env → list string → Request → Rest → Run Any Event (option Response).

(** [Object.assign(target, source)] on plain records, as the own
    properties of the target afterwards.  Every own key of the source is
    written to the target with [[Set]].  For the key [__proto__] that runs
    the setter inherited from [Object.prototype] and stores no own
    property; what the setter does to the prototype of the target is not
    part of the model. *)
Definition Object_assign (target source : gmap string Value)
    : gmap string Value :=
  delete "__proto__" source ∪ target.

(** [plugins.map((p) => p(request))]: the plugins are called in order; a
    call that throws ends the [map]. *)
Fixpoint call_plugins (env : Env) (request : Request) (j : nat)
    (plugins : list Plugin) : Run Any Event (list (Promise Any PluginResult)) :=
  match plugins with
  | [] => mret []
  | p :: plugins' =>
      _ ← tell (EvPlugin j);
      promise ← call (p env request);
      promises ← call_plugins env request (S j) plugins';
      mret (promise :: promises)
  end.

(** The loop [for (const result of results)] of [route]: the first response
    leaves the route, a record is assigned into the context. *)
Fixpoint inspect (context : gmap string Value) (results : list PluginResult)
    : Response + gmap string Value :=
  match results with
  | [] => inr context
  | PResponse r :: _ => inl r
  | PFields fields :: results' =>
      inspect (Object_assign context fields) results'
  end.

(** The closure [route] built by a registration
    [router[property](pattern, plugins, h)]. *)
Definition route (verb : Verb.Method) (pattern : string)
    (plugins : list Plugin) (h : Handler) : Route :=
  let property := Verb.name verb in
  let patternSegments := Text.split "/" pattern in
  λ env segments request rest,
    if negb (String.eqb property "all")
       && negb (String.eqb (Text.toLowerCase (method request)) property)
    then mret None
    else
      _ ← tell EvMatch;
      match match_ segments patternSegments with
      | None => mret None
      | Some params =>
          let context : gmap string Value :=
            {[ "params" := VParams params;
               "url" := VUrl (new_URL (url request));
               "request" := VRequest request ]} in
          promises ← call_plugins env request 0 plugins;
          results ← await (Promise_all promises);
          match inspect context results with
          | inl response => mret (Some response)
          | inr context =>
              _ ← tell (EvHandler context);
              response ← call (h env context rest);
              mret (Some response)
          end
      end.

(** One registration through the proxy. *)
Record Registration := {
  reg_verb : Verb.Method;
  reg_pattern : string;
  reg_plugins : list Plugin;
  reg_handler : Handler
}.

Definition route_of (r : Registration) : Route :=
  route (reg_verb r) (reg_pattern r) (reg_plugins r) (reg_handler r).

(** [routes.push(route)] *)
Definition register (routes : list Route) (r : Registration) : list Route :=
  routes ++ [route_of r].

(** The route table after a chain of registrations on a fresh [Router()]. *)
Definition Router (regs : list Registration) : list Route :=
  foldl register [] regs.

(** The loop [for (const route of routes)] of [handle]; [Some] is its
    [return response], [None] is running off the end of the table. *)
Fixpoint try_routes (routes : list Route) (i : nat) (env : Env)
    (segments : list string) (request : Request) (rest : Rest)
    : Run Any DispatchEvent (option Response) :=
  match routes with
  | [] => mret None
  | route :: routes' =>
      _ ← tell (EvRoute i);
      response ← tag (EvIn i) (route env segments request rest);
      match response with
      | None => try_routes routes' (S i) env segments request rest
      | Some response => mret (Some response)
      end
  end.

(** The [catch (err)] clause of [handle]. *)
Definition on_error (err : Thrown Any) : Response :=
  match err with
  | ThrownResponse r => r
  | ThrownError message => new_Response (Some message) 500
  | ThrownOther _ => new_Response None 500
  end.

(** [handle(request, ...rest)] *)
Definition handle (routes : list Route) (env : Env) (request : Request)
    (rest : Rest) : Run Any DispatchEvent Response :=
  let url := new_URL (url request) in
  let segments := Text.split "/" (pathname url) in
  returned ←
    try_catch (try_routes routes 0 env segments request rest)
              (λ err, mret (Some (on_error err)));
  match returned with
  | Some response => mret response
  | None => mret (new_Response None 500)
  end.

(** *** Vocabulary of the statements *)

(** The context literal of [route]:
    [{ params, url: new URL(request.url), request }]. *)
Definition initial_context (params : gmap string string) (request : Request)
    : gmap string Value :=
  {[ "params" := VParams params;
     "url" := VUrl (new_URL (url request));
     "request" := VRequest request ]}.

(** Lines 271-279 of [route] on their own: what a route does with a request
    that passed the method test and matched with [params]. *)
Definition respond (plugins : list Plugin) (h : Handler)
    (params : gmap string string) (env : Env) (request : Request)
    (rest : Rest) : Run Any Event (option Response) :=
  promises ← call_plugins env request 0 plugins;
  results ← await (Promise_all promises);
  match inspect (initial_context params request) results with
  | inl response => mret (Some response)
  | inr context =>
      _ ← tell (EvHandler context);
      response ← call (h env context rest);
      mret (Some response)
  end.

(** The method rule in the words of the specification: the wildcard verb
    accepts every method, any other verb accepts the methods equal to it up
    to letter case. *)
Definition method_accepts (verb : Verb.Method) (m : string) : bool :=
  match verb with
  | Verb.all => true
  | _ => String.eqb (Text.toLowerCase m) (Text.toLowerCase (Verb.name verb))
  end.

(** Structural match of a registration: method and pattern. *)
Definition structural_match (r : Registration) (segments : list string)
    (request : Request) : option (gmap string string) :=
  if method_accepts (reg_verb r) (method request)
  then match_ segments (Text.split "/" (reg_pattern r))
  else None.

(** Registration [i] is the first, in registration order, that matches. *)
Definition first_match (regs : list Registration) (segments : list string)
    (request : Request) (i : nat) (r : Registration)
    (params : gmap string string) : Prop :=
  regs !! i = Some r
  ∧ structural_match r segments request = Some params
  ∧ ∀ j r', j < i → regs !! j = Some r' →
      structural_match r' segments request = None.

(** Every plugin, called on the request, yields a promise that fulfils;
    [results] are the values in declaration order.  Nothing is said about
    when each promise settles. *)
Definition plugin_results (plugins : list Plugin) (env : Env)
    (request : Request) (results : list PluginResult) : Prop :=
  Forall2 (λ p v, ∃ promise, p env request = Normal promise
                             ∧ outcome promise = Fulfilled v)
          plugins results.

(** The response [handle] makes of what a handler did. *)
Definition answer (c : Completion Any Response) : Response :=
  match c with
  | Normal response => response
  | Abrupt err => on_error err
  end.

(** The response [handle] makes of what a route did. *)
Definition settle (c : Completion Any (option Response)) : Response :=
  match c with
  | Normal (Some response) => response
  | Normal None => new_Response None 500
  | Abrupt err => on_error err
  end.

(** Two responses can be told apart by status or by body. *)
Definition distinguishable (r1 r2 : Response) : Prop :=
  status r1 ≠ status r2 ∨ body r1 ≠ body r2.

(** A plugin, a handler, a registration that do not depend on anything
    outside their arguments: what they yield, and for a plugin when its
    promise settles, is the same in every state of the world. *)
Definition pure_plugin (p : Plugin) : Prop :=
  ∀ env env' request, p env request = p env' request.

Definition pure_handler (h : Handler) : Prop :=
  ∀ env env' context rest, h env context rest = h env' context rest.

Definition pure_registration (r : Registration) : Prop :=
  Forall pure_plugin (reg_plugins r) ∧ pure_handler (reg_handler r).

Definition route_index (e : DispatchEvent) : nat :=
  match e with
  | EvRoute i => i
  | EvIn i _ => i
  end.

Definition is_handler_call (e : DispatchEvent) : Prop :=
  match e with
  | EvIn _ (EvHandler _) => True
  | _ => False
  end.

End Router.

Arguments Value : clear implicits.
Arguments PluginResult : clear implicits.
Arguments Plugin : clear implicits.
Arguments Handler : clear implicits.
Arguments Event : clear implicits.
Arguments DispatchEvent : clear implicits.
Arguments Route : clear implicits.
Arguments Registration : clear implicits.

(** ** A concrete instance, for examples *)

Module Example.

Fixpoint after_scheme (s : string) : string :=
  match s with
  | EmptyString => EmptyString
  | String ":" (String "/" (String "/" s')) => s'
  | String _ s' => after_scheme s'
  end.

Fixpoint from_slash (s : string) : string :=
  match s with
  | EmptyString => "/"
  | String "/" _ => s
  | String _ s' => from_slash s'
  end.

Fixpoint until_query (s : string) : string :=
  match s with
  | EmptyString => EmptyString
  | String "?" _ => EmptyString
  | String "#" _ => EmptyString
  | String c s' => String c (until_query s')
  end.

(** [new URL(s)] on plain [scheme://authority/path?query#fragment] strings
    (no dot segments, nothing to percent-encode). *)
Definition new_URL (s : string) : URL :=
  {| href := s; pathname := until_query (from_slash (after_scheme s)) |}.

(** Opaque values are numbers, the environment is a clock reading, there
    are no rest arguments. *)
Definition Any : Type := nat.
Definition Env : Type := nat.
Definition Rest : Type := unit.

(** [() => new Response(text, { status: code })] *)
Definition reply (code : nat) (text : string) : Handler Any Env Rest :=
  λ _ _ _, Normal (new_Response (Some text) code).

(** [() => { throw v }] for a [v] that is neither a response nor an error *)
Definition throws_opaque (v : Any) : Handler Any Env Rest :=
  λ _ _ _, Abrupt (ThrownOther v).

(** A handler that reads the clock: answers 200 on even readings and 503 on
    odd ones. *)
Definition flaky : Handler Any Env Rest :=
  λ now _ _,
    Normal (new_Response None (if Nat.even now then 200 else 503)).

(** A plugin whose promise fulfils with [v] at instant [t]. *)
Definition yields (t : nat) (v : PluginResult Any) : Plugin Any Env :=
  λ _ _, Normal {| settles_at := t; outcome := Fulfilled v |}.

(** A plugin whose promise rejects with [err] at instant [t]. *)
Definition fails (t : nat) (err : Thrown Any) : Plugin Any Env :=
  λ _ _, Normal {| settles_at := t; outcome := Rejected err |}.

(** A plugin whose promise rejects with [err] after a delay read off the
    clock. *)
Definition fails_late (err : Thrown Any) : Plugin Any Env :=
  λ now _, Normal {| settles_at := now; outcome := Rejected err |}.

Definition router (regs : list (Registration Any Env Rest))
    : list (Route Any Env Rest) :=
  Router new_URL Match.match_ regs.

Definition dispatch_at (now : Env) (regs : list (Registration Any Env Rest))
    (request : Request) : Run Any (DispatchEvent Any) Response :=
  handle new_URL (router regs) now request tt.

Definition dispatch := dispatch_at 0.

(** The tables and requests of the examples. *)
Definition by_id : Registration Any Env Rest :=
  {| reg_verb := Verb.get; reg_pattern := "/users/:id";
     reg_plugins := []; reg_handler := reply 200 "by id" |}.

Definition me : Registration Any Env Rest :=
  {| reg_verb := Verb.get; reg_pattern := "/users/me";
     reg_plugins := []; reg_handler := reply 200 "me" |}.

Definition create : Registration Any Env Rest :=
  {| reg_verb := Verb.post; reg_pattern := "/users/me";
     reg_plugins := []; reg_handler := reply 201 "created" |}.

Definition broken : Registration Any Env Rest :=
  {| reg_verb := Verb.all; reg_pattern := "/users/me";
     reg_plugins := []; reg_handler := throws_opaque 7 |}.

Definition unauthorized : Response := new_Response (Some "A") 401.
Definition forbidden : Response := new_Response (Some "B") 403.

(** Two plugins that both answer; the one declared second settles first. *)
Definition guarded : Registration Any Env Rest :=
  {| reg_verb := Verb.get; reg_pattern := "/users/me";
     reg_plugins := [yields 5 (PResponse unauthorized);
                     yields 1 (PResponse forbidden)];
     reg_handler := reply 200 "me" |}.

Definition session_fields : gmap string (Value Any) :=
  {[ "user" := VAny 1 ]}.
Definition override_fields : gmap string (Value Any) :=
  {[ "user" := VAny 2; "params" := VAny 3 ]}.

(** Two plugins that contribute fields; the second one also names the
    reserved key [params]. *)
Definition enriched : Registration Any Env Rest :=
  {| reg_verb := Verb.get; reg_pattern := "/users/:id";
     reg_plugins := [yields 2 (PFields session_fields);
                     yields 1 (PFields override_fields)];
     reg_handler := reply 200 "by id" |}.

(** A record with an own key [__proto__], as [JSON.parse] or a computed
    key makes them. *)
Definition polluted_fields : gmap string (Value Any) :=
  {[ "__proto__" := VAny 5; "user" := VAny 1 ]}.

Definition polluted : Registration Any Env Rest :=
  {| reg_verb := Verb.get; reg_pattern := "/users/me";
     reg_plugins := [yields 1 (PFields polluted_fields)];
     reg_handler := reply 200 "me" |}.

Definition get_users_me : Request :=
  {| method := "GET"; url := "http://host/users/me?x=1" |}.

Definition get_users_42 : Request :=
  {| method := "get"; url := "http://host/users/42" |}.

(** The context the handler of [enriched] is called with: [user] comes
    from the plugin declared last, [params] is no longer the captured
    parameters, [url] and [request] are untouched. *)
Definition enriched_context : gmap string (Value Any) :=
  {[ "params" := VAny 3;
     "url" := VUrl (new_URL "http://host/users/42");
     "request" := VRequest get_users_42;
     "user" := VAny 2 ]}.

(** The segments [handle] computes for a request. *)
Definition segments_of (request : Request) : list string :=
  Text.split "/" (pathname (new_URL (url request))).

End Example.

(** ** More vocabulary for the router *)

Section RouterTrace.
Context {Any Env Rest : Type}.

(** What the loop of [handle] does with registrations that do not match the
    request, starting at index [i]: each route is called once, and calls the
    matcher when its method test passes. *)
Fixpoint skipped_events (request : Request) (i : nat)
    (regs : list (Registration Any Env Rest)) : list (DispatchEvent Any) :=
  match regs with
  | [] => []
  | r :: regs' =>
      EvRoute i
        :: (if method_accepts (reg_verb r) (method request)
            then [EvIn i EvMatch] else [])
        ++ skipped_events request (S i) regs'
  end.

End RouterTrace.

(** ** The response helpers [json], [text], [html], [body], [err], [ok],
    [empty] (lines 102-208) *)

Module Helpers.

Section Helpers.
Context {Any : Type}.

(** [BodyInit]: a string, or a body the helpers do not look into. *)
Inductive BodyInit :=
| BText (s : string)
| BOther (a : Any).

(** [HeadersInit].  A record is given by its own properties in property
    order, each key once. *)
Inductive HeadersInit :=
| HObject (h : Any)                              (* a [Headers] object *)
| HPairs (pairs : list (list string))            (* [string[][]] *)
| HRecord (fields : list (string * string)).     (* [Record<string, string>] *)

(** A property value of the object literal
    [{ ...init?.headers, "Content-Type": t }]: a string, or an array when the
    spread copied an element of an array of pairs. *)
Inductive HeaderField :=
| FString (s : string)
| FArray (a : list string).

(** [Omit<ResponseInit, "status">]: [headers], and the other own properties
    ([statusText], [webSocket], ...). *)
Record ResponseInit := {
  init_headers : option HeadersInit;
  init_others : gmap string Any
}.

(** The [headers] member of the object literal handed to [new Response]:
    [init.headers] as it was given ([body], [empty]), or a fresh object
    literal ([json], [text], [html]), given by its properties in property
    order, which is the order in which the constructor reads them. *)
Inductive HeadersArg :=
| GivenHeaders (h : HeadersInit)
| LiteralHeaders (fields : list (string * HeaderField)).

(** The object literal handed to [new Response] as its second argument.  The
    constructor reads [status], [headers] and the other members by name. *)
Record ConstructorInit := {
  ci_status : nat;
  ci_headers : option HeadersArg;
  ci_others : gmap string Any
}.

(** The own enumerable properties an object spread [{ ...h }] copies, in
    property order.  A [Headers] object keeps its entries in an internal
    list and has none; an array has its elements under their indices; a
    record has its fields. *)
Definition own_properties (h : HeadersInit) : list (string * HeaderField) :=
  match h with
  | HObject _ => []
  | HPairs pairs => imap (λ i pair, (pretty i, FArray pair)) pairs
  | HRecord fields => (λ kv, (kv.1, FString kv.2)) <$> fields
  end.

(** [key: v] written in an object literal after a spread, for a [key] that is
    not an array index: a property of that name keeps its place and takes
    the value, otherwise the property is added last. *)
Fixpoint set_field {V} (key : string) (v : V) (fields : list (string * V))
    : list (string * V) :=
  match fields with
  | [] => [(key, v)]
  | (k, w) :: fields' =>
      if String.eqb k key then (k, v) :: fields'
      else (k, w) :: set_field key v fields'
  end.

(** [{ ...init }] without [headers]; [init] may be [undefined]. *)
Definition spread_init (init : option ResponseInit) : gmap string Any :=
  match init with
  | Some i => init_others i
  | None => ∅
  end.

(** [{ ...init?.headers }] *)
Definition spread_headers (init : option ResponseInit)
    : list (string * HeaderField) :=
  match init ≫= init_headers with
  | Some h => own_properties h
  | None => []
  end.

(** The statuses with which a response has no body (101, 103, 204, 205,
    304). *)
Definition null_body_status (code : nat) : bool :=
  Nat.eqb code 101 || Nat.eqb code 103 || Nat.eqb code 204
  || Nat.eqb code 205 || Nat.eqb code 304.

(** [J]: the values handed to [JSON.stringify]. *)
Context {J : Type}.

(** [new Response(body, init)], the platform's constructor; it may throw. *)
Variable construct :
  option BodyInit → ConstructorInit → Completion Any Response.

(** [JSON.stringify(value)]: a string, or [undefined], or it throws. *)
Variable JSON_stringify : J → Completion Any (option string).

(** The value [null]. *)
Variable JSON_null : J.

(** [json(code, value, init)] *)
Definition json (code : nat) (value : J) (init : option ResponseInit)
    : Completion Any Response :=
  match JSON_stringify value with
  | Abrupt t => Abrupt t
  | Normal s =>
      construct (BText <$> s)
        {| ci_status := code;
           ci_headers :=
             Some (LiteralHeaders
                     (set_field "Content-Type" (FString "application/json")
                        (spread_headers init)));
           ci_others := spread_init init |}
  end.

(** [text(code, value, init)] *)
Definition text (code : nat) (value : string) (init : option ResponseInit)
    : Completion Any Response :=
  construct (Some (BText value))
    {| ci_status := code;
       ci_headers :=
         Some (LiteralHeaders
                 (set_field "Content-Type" (FString "text/plain")
                    (spread_headers init)));
       ci_others := spread_init init |}.


(** [body(code, value, init)]: [value] may be [null] or left out. *)
Definition body (code : nat) (value : option BodyInit)
    (init : option ResponseInit) : Completion Any Response :=
  construct value
    {| ci_status := code;
       ci_headers := GivenHeaders <$> (init ≫= init_headers);
       ci_others := spread_init init |}.

(** [value ?? null] *)
Definition or_null (value : option J) : J :=
  match value with
  | Some v => v
  | None => JSON_null
  end.

(** [err(code, value, init)] *)
Definition err (code : nat) (value : option J) (init : option ResponseInit)
    : Completion Any Response :=
  json code (or_null value) init.

(** [ok(code, value, init)] *)
Definition ok (code : nat) (value : option J) (init : option ResponseInit)
    : Completion Any Response :=
  if Nat.eqb code 204 || Nat.eqb code 205 then text code "" init
  else json code (or_null value) init.

(** [empty(code, init)] *)
Definition empty (code : nat) (init : option ResponseInit)
    : Completion Any Response :=
  body code None init.

End Helpers.

Arguments BodyInit : clear implicits.
Arguments HeadersInit : clear implicits.
Arguments ResponseInit : clear implicits.
Arguments ConstructorInit : clear implicits.

End Helpers.

(** ** More concrete instances *)

Module MoreExamples.
Import Example.

(** A plugin whose call throws. *)
Definition throws_now (err : Thrown Any) : Plugin Any Env :=
  λ _ _, Abrupt err.

(** The second plugin throws when it is called. *)
Definition crashing : Registration Any Env Rest :=
  {| reg_verb := Verb.get; reg_pattern := "/users/me";
     reg_plugins := [fails 3 (ThrownError "slow");
                     throws_now (ThrownError "boom");
                     yields 1 (PResponse forbidden)];
     reg_handler := reply 200 "me" |}.

(** The first plugin answers, the second rejects at instant 2, the third
    rejects later. *)
Definition rejecting : Registration Any Env Rest :=
  {| reg_verb := Verb.get; reg_pattern := "/users/me";
     reg_plugins := [yields 1 (PResponse unauthorized);
                     fails 2 (ThrownError "denied");
                     fails 7 (ThrownError "late")];
     reg_handler := reply 200 "me" |}.

(** A stand-in for the platform's constructor, after the steps of the Fetch
    standard that can throw: a status outside 200-599 is a [RangeError], a
    body together with a null body status is a [TypeError].  It keeps the
    status and a text body. *)
Definition construct (b : option (Helpers.BodyInit Any))
    (ci : Helpers.ConstructorInit Any) : Completion Any Response :=
  if negb (Nat.leb 200 (Helpers.ci_status ci)
           && Nat.leb (Helpers.ci_status ci) 599)
  then Abrupt (ThrownError "RangeError")
  else match b with
       | Some b' =>
           if Helpers.null_body_status (Helpers.ci_status ci)
           then Abrupt (ThrownError "TypeError")
           else Normal {| status := Helpers.ci_status ci;
                          headers := [];
                          body := match b' with
                                  | Helpers.BText s => Some s
                                  | Helpers.BOther _ => None
                                  end |}
       | None => Normal {| status := Helpers.ci_status ci;
                           headers := [];
                           body := None |}
       end.

(** A stand-in for [JSON.stringify] on optional numbers: [None] is [null],
    and the number 0 stands for a value that cannot be serialised. *)
Definition stringify (v : option nat) : Completion Any (option string) :=
  match v with
  | None => Normal (Some "null")
  | Some 0 => Abrupt (ThrownError "TypeError")
  | Some n => Normal (Some (pretty n))
  end.

End MoreExamples.

(** ** Facts about the matcher *)

Module MatchFacts.
Import Match.

Lemma compile_segments_cons p q ps :
  compile_segments (p :: q :: ps) = classify p :: compile_segments (q :: ps).
Proof. reflexivity. Qed.

Lemma compile_segments_length ps :
  length (compile_segments ps) = length ps.
Proof.
  induction ps as [|p [|q ps] IH]; [done| |].
  - simpl. by destruct (String.eqb p "*").
  - rewrite compile_segments_cons. cbn [length]. by rewrite IH.
Qed.

Lemma classify_not_wildcard p : classify p ≠ Wildcard.
Proof.
  destruct p as [|c p]; [done|]. unfold classify.
  destruct c as [[] [] [] [] [] [] [] []]; done.
Qed.

Lemma ends_in_wildcard_compile ps :
  ends_in_wildcard (compile_segments ps) = true ↔ last ps = Some "*".
Proof.
  induction ps as [|p [|q ps] IH].
  - by split.
  - unfold ends_in_wildcard. simpl.
    destruct (String.eqb_spec p "*") as [->|Hne]; simpl.
    + by split.
    + pose proof (classify_not_wildcard p).
      split; [destruct (classify p); done | intros [=]; done].
  - rewrite compile_segments_cons.
    change (last (p :: q :: ps)) with (last (q :: ps)).
    rewrite <- IH. unfold ends_in_wildcard.
    assert (Hne : compile_segments (q :: ps) ≠ []).
    { intros E. apply (f_equal length) in E.
      rewrite compile_segments_length in E. done. }
    destruct (compile_segments (q :: ps)) as [|x xs]; done.
Qed.

(** Segments of a pattern that does not end in the wildcard are literals
    and captures only. *)
Lemma compile_no_wildcard ps :
  last ps ≠ Some "*" → Wildcard ∉ compile_segments ps.
Proof.
  induction ps as [|p [|q ps] IH]; intros Hlast.
  - apply not_elem_of_nil.
  - simpl. destruct (String.eqb_spec p "*") as [->|Hne]; [done|].
    intros Hin%list_elem_of_singleton.
    by apply (classify_not_wildcard p).
  - rewrite compile_segments_cons.
    intros [Heq|Hin]%elem_of_cons.
    + by apply (classify_not_wildcard p).
    + by apply IH.
Qed.

(** The walk alone already rejects a path of the wrong length. *)
Lemma walk_length pattern path acc params :
  Wildcard ∉ pattern →
  walk pattern path acc = Some params →
  length path = length pattern.
Proof.
  revert path acc.
  induction pattern as [|seg pattern IH]; intros [|x xs] acc Hnw Hw;
    simpl in Hw; try done.
  - destruct seg; try done. exfalso. apply Hnw. left.
  - apply not_elem_of_cons in Hnw as [Hseg Hnw].
    destruct seg as [l|n|]; [| |done]; simpl.
    + destruct (String.eqb l x); [|done]. f_equal. by eapply IH.
    + destruct (String.eqb x ""); [done|]. f_equal. by eapply IH.
Qed.

Lemma match_length_mismatch (segments patternSegments : list string) :
  last patternSegments ≠ Some "*" →
  length segments ≠ length patternSegments →
  match_ segments patternSegments = None
  ∧ walk (compile_segments patternSegments) segments ∅ = None.
Proof.
  intros Hlast Hlen. split.
  - unfold match_, matcher.
    destruct (ends_in_wildcard (compile_segments patternSegments)) eqn:Hw.
    { by apply ends_in_wildcard_compile in Hw. }
    rewrite compile_segments_length.
    by apply Nat.eqb_neq in Hlen as ->.
  - destruct (walk _ segments ∅) as [params|] eqn:Hwalk; [|done].
    apply walk_length in Hwalk; [|by apply compile_no_wildcard].
    by rewrite compile_segments_length in Hwalk.
Qed.

(** C8. For a pattern [P] whose last segment is not the wildcard and a path
    [X] that splits on [/] into a different number of segments than [P],
    the matcher answers "no match"; the length test in front of the walk
    and the walk itself both reject the path. *)
Theorem segment_count_mismatch (P X : string) :
  last (Text.split "/" P) ≠ Some "*" →
  length (Text.split "/" X) ≠ length (Text.split "/" P) →
  match_ (Text.split "/" X) (Text.split "/" P) = None
  ∧ walk (compile_segments (Text.split "/" P)) (Text.split "/" X) ∅ = None.
Proof. apply match_length_mismatch. Qed.

End MatchFacts.

(** ** Facts about runs *)

Section RunFacts.
Context {Any E : Type}.

Lemma run_eta {A} (m : Run Any E A) : m = (trace m, completion m).
Proof. by destruct m. Qed.

Lemma bind_tell {A} (e : E) (k : unit → Run Any E A) :
  (tell e ≫= k) = (e :: trace (k tt), completion (k tt)).
Proof. unfold tell, mbind, run_bind. by destruct (k tt). Qed.

Lemma bind_normal {A B} tr (a : A) (k : A → Run Any E B) :
  ((tr, Normal a) : Run Any E A) ≫= k
  = (tr ++ trace (k a), completion (k a)).
Proof. unfold mbind, run_bind. by destruct (k a). Qed.

Lemma bind_abrupt {A B} tr t (k : A → Run Any E B) :
  ((tr, Abrupt t) : Run Any E A) ≫= k = (tr, Abrupt t).
Proof. reflexivity. Qed.

Lemma bind_ret {A B} (a : A) (k : A → Run Any E B) : (mret a ≫= k) = k a.
Proof. unfold mret, run_ret, mbind, run_bind. by destruct (k a). Qed.

Lemma bind_throw {A B} t (k : A → Run Any E B) : (throw t ≫= k) = throw t.
Proof. reflexivity. Qed.

Lemma bind_call {A B} (c : Completion Any A) (k : A → Run Any E B) :
  (call c ≫= k)
  = match c with
    | Normal a => k a
    | Abrupt t => ([], Abrupt t)
    end.
Proof.
  destruct c as [a|t]; [|done].
  unfold call, mbind, run_bind. by destruct (k a).
Qed.

End RunFacts.

(** ** Facts about the router *)

Section RouterFacts.
Context {Any Env Rest : Type}.
Variable new_URL : string → URL.
Variable match_ : list string → list string → option (gmap string string).

Implicit Types (verb : Verb.Method) (pattern : string).
Implicit Types (plugins : list (Plugin Any Env)) (h : Handler Any Env Rest).
Implicit Types (r : Registration Any Env Rest).
Implicit Types (regs : list (Registration Any Env Rest)).
Implicit Types (routes : list (Route Any Env Rest)).
Implicit Types (env : Env) (request : Request) (rest : Rest).
Implicit Types (segments : list string) (params : gmap string string).
Implicit Types (context : gmap string (Value Any)).
Implicit Types (results : list (PluginResult Any)).

(** *** The method test *)

Lemma lower_name verb : Text.toLowerCase (Verb.name verb) = Verb.name verb.
Proof. by destruct verb. Qed.

Lemma gate_method_accepts verb request :
  negb (String.eqb (Verb.name verb) "all")
  && negb (String.eqb (Text.toLowerCase (method request)) (Verb.name verb))
  = negb (method_accepts verb (method request)).
Proof.
  unfold method_accepts. rewrite lower_name. by destruct verb.
Qed.

(** *** One route *)

Lemma route_unfold verb pattern plugins h env segments request rest :
  route new_URL match_ verb pattern plugins h env segments request rest
  = if method_accepts verb (method request) then
      match match_ segments (Text.split "/" pattern) with
      | None => ([EvMatch], Normal None)
      | Some params =>
          let run := respond new_URL plugins h params env request rest in
          (EvMatch :: trace run, completion run)
      end
    else ([], Normal None).
Proof.
  unfold route. rewrite gate_method_accepts.
  destruct (method_accepts verb (method request)); [|done].
  cbn [negb]. rewrite bind_tell.
  by destruct (match_ segments (Text.split "/" pattern)).
Qed.

Lemma route_of_unfold r env segments request rest :
  route_of new_URL match_ r env segments request rest
  = match structural_match match_ r segments request with
    | Some params =>
        let run := respond new_URL (reg_plugins r) (reg_handler r) params
                     env request rest in
        (EvMatch :: trace run, completion run)
    | None =>
        (if method_accepts (reg_verb r) (method request)
         then [EvMatch] else [], Normal None)
    end.
Proof.
  unfold route_of, structural_match. rewrite route_unfold.
  destruct (method_accepts _ _); [|done].
  by destruct (match_ _ _).
Qed.

Lemma call_plugins_trace env request j plugins :
  Forall (λ e, ∃ k, e = EvPlugin k)
         (trace (call_plugins env request j plugins)).
Proof.
  revert j. induction plugins as [|p plugins IH]; intros j; [constructor|].
  cbn [call_plugins]. rewrite bind_tell. cbn [trace fst].
  constructor; [by eexists|].
  rewrite bind_call. destruct (p env request) as [promise|t]; [|constructor].
  specialize (IH (S j)).
  destruct (call_plugins env request (S j) plugins) as [tr [promises|t]];
    cbn in *; [by rewrite app_nil_r | done].
Qed.


(** What [respond] can do: it never answers [null]; if it calls the handler,
    that call is its last and decides the outcome. *)
Lemma respond_cases plugins h params env request rest :
  let run := respond new_URL plugins h params env request rest in
  completion run ≠ Normal None
  ∧ (Forall (λ e, ∃ k, e = EvPlugin k) (trace run)
     ∨ ∃ pre context,
         trace run = pre ++ [EvHandler context]
         ∧ Forall (λ e, ∃ k, e = EvPlugin k) pre
         ∧ settle (completion run) = answer (h env context rest)).
Proof.
  unfold respond.
  pose proof (call_plugins_trace env request 0 plugins) as Htr.
  destruct (call_plugins env request 0 plugins) as [tr [promises|t]];
    cbn [trace fst] in Htr; [|by split; [|left]].
  rewrite (bind_normal (E:=Event Any)). unfold await.
  destruct (outcome (Promise_all promises)) as [results|t];
    [|split; [done|left]; cbn; by rewrite app_nil_r].
  rewrite bind_ret.
  destruct (inspect _ results) as [response|context].
  { split; [done|left]. cbn. by rewrite app_nil_r. }
  rewrite bind_tell, bind_call.
  destruct (h env context rest) as [response|t] eqn:Hh; cbn.
  - split; [done|right]. exists tr, context. by rewrite Hh.
  - split; [done|right]. exists tr, context. by rewrite Hh.
Qed.

(** *** The loop over the route table *)

Lemma Router_map regs :
  Router new_URL match_ regs = route_of new_URL match_ <$> regs.
Proof.
  unfold Router.
  assert (H : ∀ routes,
    foldl (register new_URL match_) routes regs
    = routes ++ (route_of new_URL match_ <$> regs)).
  { induction regs as [|r regs IH]; intros routes; cbn.
    - by rewrite app_nil_r.
    - rewrite IH. unfold register. by rewrite <- app_assoc. }
  apply (H []).
Qed.

Lemma try_routes_cons (route : Route Any Env Rest) routes i env segments
    request rest :
  try_routes (route :: routes) i env segments request rest
  = let run := route env segments request rest in
    let next := try_routes routes (S i) env segments request rest in
    match completion run with
    | Normal None =>
        (EvRoute i :: (EvIn i <$> trace run) ++ trace next, completion next)
    | Normal (Some response) =>
        (EvRoute i :: (EvIn i <$> trace run), Normal (Some response))
    | Abrupt t => (EvRoute i :: (EvIn i <$> trace run), Abrupt t)
    end.
Proof.
  cbn [try_routes]. rewrite bind_tell. unfold tag.
  destruct (route env segments request rest) as [tr [[response|]|t]]; cbn.
  - by rewrite app_nil_r.
  - by destruct (try_routes routes (S i) env segments request rest).
  - done.
Qed.

Lemma handle_unfold routes env request rest :
  let segments := Text.split "/" (pathname (new_URL (url request))) in
  let loop := try_routes routes 0 env segments request rest in
  handle new_URL routes env request rest
  = (trace loop, Normal (settle (completion loop))).
Proof.
  unfold handle, try_catch.
  destruct (try_routes routes 0 env _ request rest) as [tr [[response|]|t]];
    cbn; by rewrite ?app_nil_r.
Qed.

(** *** The loop over registered routes *)

Lemma try_routes_regs_cons r regs i env segments request rest :
  try_routes (route_of new_URL match_ <$> (r :: regs)) i env segments
    request rest
  = match structural_match match_ r segments request with
    | Some params =>
        let run := respond new_URL (reg_plugins r) (reg_handler r) params
                     env request rest in
        (EvRoute i :: EvIn i EvMatch :: (EvIn i <$> trace run),
         completion run)
    | None =>
        let next := try_routes (route_of new_URL match_ <$> regs) (S i) env
                      segments request rest in
        (EvRoute i
           :: (if method_accepts (reg_verb r) (method request)
               then [EvIn i EvMatch] else [])
           ++ trace next,
         completion next)
    end.
Proof.
  rewrite fmap_cons, try_routes_cons, route_of_unfold.
  destruct (structural_match match_ r segments request) as [params|].
  - cbn [completion trace fst snd].
    pose proof (respond_cases (reg_plugins r) (reg_handler r) params env
                  request rest) as [Hnone _].
    cbn zeta in Hnone.
    by destruct (completion (respond _ _ _ _ _ _ _)) as [[response|]|t].
  - cbn [completion trace fst snd].
    by destruct (method_accepts (reg_verb r) (method request)).
Qed.

Lemma first_match_head r regs segments request params :
  first_match match_ (r :: regs) segments request 0 r params
  ↔ structural_match match_ r segments request = Some params.
Proof.
  unfold first_match. split; [by intros (_ & ? & _)|].
  intros H. split_and!; [done|done|]. intros j r' Hj. lia.
Qed.

Lemma first_match_tail r0 regs segments request i r params :
  first_match match_ (r0 :: regs) segments request (S i) r params
  ↔ structural_match match_ r0 segments request = None
    ∧ first_match match_ regs segments request i r params.
Proof.
  unfold first_match. split.
  - intros (Hi & Hm & Hbefore). split_and!; [|done|done|].
    + by apply (Hbefore 0 r0); [lia|].
    + intros j r' Hj Hr'. apply (Hbefore (S j) r'); [lia|done].
  - intros (H0 & Hi & Hm & Hbefore). split_and!; [done|done|].
    intros [|j] r' Hj Hr'; cbn in Hr'.
    + by simplify_eq.
    + apply (Hbefore j r'); [lia|done].
Qed.

(** The loop up to and including the first structural match. *)
Lemma try_routes_first_match regs i0 env segments request rest i r params :
  first_match match_ regs segments request i r params →
  let run := try_routes (route_of new_URL match_ <$> regs) i0 env segments
               request rest in
  let answer_run := respond new_URL (reg_plugins r) (reg_handler r) params
                      env request rest in
  completion run = completion answer_run
  ∧ ∃ pre,
      trace run = pre ++ EvRoute (i0 + i) :: EvIn (i0 + i) EvMatch
                           :: (EvIn (i0 + i) <$> trace answer_run)
      ∧ Forall (λ e, route_index e < i0 + i ∧ ¬ is_handler_call e) pre.
Proof.
  revert i0 i. induction regs as [|r0 regs IH]; intros i0 i Hfirst.
  { by destruct Hfirst as (Hi & _). }
  cbn zeta. rewrite try_routes_regs_cons.
  destruct i as [|i].
  - destruct Hfirst as (Hi & Hm & _). cbn in Hi. simplify_eq.
    rewrite Hm. cbn [completion trace fst snd]. split; [done|].
    exists []. rewrite Nat.add_0_r. split; [done|constructor].
  - apply first_match_tail in Hfirst as [H0 Hfirst]. rewrite H0.
    cbn [completion trace fst snd].
    destruct (IH (S i0) i Hfirst) as (Hc & pre & Htr & Hpre).
    replace (i0 + S i) with (S i0 + i) by lia.
    split; [done|]. rewrite Htr.
    exists (EvRoute i0
              :: (if method_accepts (reg_verb r0) (method request)
                  then [EvIn i0 EvMatch] else []) ++ pre).
    split; [by rewrite <- app_comm_cons, <- app_assoc|].
    constructor; [cbn; split; [lia|tauto]|].
    apply Forall_app. split.
    + destruct (method_accepts _ _); [|constructor].
      constructor; [|constructor]. cbn. split; [lia|tauto].
    + eapply Forall_impl; [exact Hpre|]. cbn. intros e [? ?]. split; [lia|done].
Qed.

(** The loop when nothing matches. *)
Lemma try_routes_no_match regs i0 env segments request rest :
  (∀ r, r ∈ regs → structural_match match_ r segments request = None) →
  let run := try_routes (route_of new_URL match_ <$> regs) i0 env segments
               request rest in
  completion run = Normal None
  ∧ Forall (λ e, ¬ is_handler_call e) (trace run).
Proof.
  revert i0. induction regs as [|r regs IH]; intros i0 Hnone.
  { split; [done|constructor]. }
  cbn zeta. rewrite try_routes_regs_cons.
  rewrite (Hnone r) by left. cbn [completion trace fst snd].
  destruct (IH (S i0)) as [Hc Htr].
  { intros r' Hr'. apply Hnone. by right. }
  split; [done|]. constructor; [cbn; tauto|].
  apply Forall_app. split; [|done].
  destruct (method_accepts _ _); repeat constructor; cbn; tauto.
Qed.

(** A handler call, if there is one, is the last thing the loop does, and
    the outcome of the loop is the outcome of that call. *)
Lemma try_routes_handler regs i0 env segments request rest :
  let run := try_routes (route_of new_URL match_ <$> regs) i0 env segments
               request rest in
  Forall (λ e, ¬ is_handler_call e) (trace run)
  ∨ ∃ pre k context r,
      trace run = pre ++ [EvIn (i0 + k) (EvHandler context)]
      ∧ Forall (λ e, ¬ is_handler_call e) pre
      ∧ regs !! k = Some r
      ∧ settle (completion run) = answer (reg_handler r env context rest).
Proof.
  revert i0. induction regs as [|r regs IH]; intros i0.
  { left. constructor. }
  cbn zeta. rewrite try_routes_regs_cons.
  destruct (structural_match match_ r segments request) as [params|].
  - cbn [completion trace fst snd].
    pose proof (respond_cases (reg_plugins r) (reg_handler r) params env
                  request rest) as [_ Hcases].
    cbn zeta in Hcases.
    assert (Hplug : ∀ tr : list (Event Any),
      Forall (λ e, ∃ k, e = EvPlugin k) tr →
      Forall (λ e, ¬ is_handler_call e) (EvIn i0 <$> tr)).
    { intros tr Htr. apply Forall_fmap. eapply Forall_impl; [exact Htr|].
      intros e [k ->]. cbn. tauto. }
    destruct Hcases as [Htr|(pre & context & Htr & Hpre & Hanswer)].
    + left. repeat (constructor; [cbn; tauto|]). by apply Hplug.
    + right.
      exists (EvRoute i0 :: EvIn i0 EvMatch :: (EvIn i0 <$> pre)), 0,
        context, r.
      rewrite Htr, fmap_app, Nat.add_0_r. split_and!; [done| |done|done].
      repeat (constructor; [cbn; tauto|]). by apply Hplug.
  - cbn [completion trace fst snd].
    assert (Hskip : Forall (λ e : DispatchEvent Any, ¬ is_handler_call e)
              (if method_accepts (reg_verb r) (method request)
               then [EvIn i0 EvMatch] else [])).
    { destruct (method_accepts _ _); repeat constructor; cbn; tauto. }
    destruct (IH (S i0)) as [Htr|(pre & k & context & r' & Htr & Hpre & Hk & Ha)].
    + left. constructor; [cbn; tauto|]. by apply Forall_app.
    + right.
      exists (EvRoute i0
                :: (if method_accepts (reg_verb r) (method request)
                    then [EvIn i0 EvMatch] else []) ++ pre),
        (S k), context, r'.
      rewrite Htr. replace (i0 + S k) with (S i0 + k) by lia.
      split_and!; [by rewrite <- app_comm_cons, <- app_assoc| |done|done].
      constructor; [cbn; tauto|]. by apply Forall_app.
Qed.

Lemma snoc_eq_middle {A} (P : A → Prop) (pre' pre post : list A) x y :
  pre' ++ [x] = pre ++ y :: post →
  Forall (λ e, ¬ P e) pre' → P y →
  pre = pre' ∧ y = x ∧ post = [].
Proof.
  revert pre. induction pre' as [|a pre' IH]; intros pre Heq Hpre Hy.
  - destruct pre as [|b pre]; cbn in Heq.
    + by simplify_eq.
    + simplify_eq. by destruct pre.
  - apply Forall_cons in Hpre as [Ha Hpre].
    destruct pre as [|b pre]; cbn in Heq; simplify_eq; [done|].
    destruct (IH pre) as (-> & -> & ->); done.
Qed.

(** The handler call of a dispatch, wherever it is seen in the trace. *)
Lemma handle_handler_call regs env request rest pre i context post :
  trace (handle new_URL (Router new_URL match_ regs) env request rest)
  = pre ++ EvIn i (EvHandler context) :: post →
  post = []
  ∧ Forall (λ e, ¬ is_handler_call e) pre
  ∧ ∃ r, regs !! i = Some r
         ∧ completion (handle new_URL (Router new_URL match_ regs) env
                         request rest)
           = Normal (answer (reg_handler r env context rest)).
Proof.
  rewrite handle_unfold, Router_map. cbn [trace completion fst snd].
  intros Htrace.
  destruct (try_routes_handler regs 0 env
              (Text.split "/" (pathname (new_URL (url request))))
              request rest)
    as [Hno|(pre' & k & context' & r & Htr & Hpre & Hk & Ha)].
  - rewrite Htrace in Hno. apply Forall_app in Hno as [_ Hno].
    apply Forall_cons in Hno as [Hno _]. by destruct Hno.
  - rewrite Htrace in Htr. symmetry in Htr.
    destruct (snoc_eq_middle is_handler_call _ _ _ _ _ Htr Hpre)
      as (-> & Heq & ->); [done|].
    cbn in Heq. simplify_eq. split_and!; [done|done|].
    exists r. by rewrite Ha.
Qed.

(** *** Normalisation of failures *)

(** C1. For every route table and request, [handle] completes normally with
    a response: it never throws.  If the loop over the routes throws a
    [Response], that response is returned as it is; if it throws an [Error],
    the answer is [new Response(err.message, { status: 500 })], whose body
    is the message; any other thrown value gives
    [new Response(null, { status: 500 })]. *)
Theorem handle_never_raises routes env request rest :
  ∃ response,
    completion (handle new_URL routes env request rest) = Normal response
    ∧ match completion
              (try_routes routes 0 env
                 (Text.split "/" (pathname (new_URL (url request))))
                 request rest)
      with
      | Abrupt (ThrownResponse thrown) => response = thrown
      | Abrupt (ThrownError message) =>
          response = new_Response (Some message) 500
          ∧ status response = 500 ∧ body response = Some message
      | Abrupt (ThrownOther _) =>
          response = new_Response None 500
          ∧ status response = 500 ∧ body response = None
      | Normal (Some returned) => response = returned
      | Normal None => response = new_Response None 500
      end.
Proof.
  rewrite handle_unfold. cbn [completion snd].
  eexists. split; [reflexivity|].
  by destruct (completion (try_routes _ _ _ _ _ _)) as [[?|]|[?|?|?]].
Qed.

(** *** The method test *)

(** C6. A route lets a request through to the matcher exactly when it is
    registered under [all] or the request's method equals its verb up to
    letter case; otherwise the route answers [null] having called nothing:
    neither the matcher, nor a plugin, nor the handler. *)
Theorem route_method_gate verb pattern plugins h env segments request rest :
  (verb = Verb.all
   ∨ Text.toLowerCase (method request) = Text.toLowerCase (Verb.name verb)
   → head (trace (route new_URL match_ verb pattern plugins h env segments
                    request rest))
     = Some EvMatch)
  ∧ (verb ≠ Verb.all
     ∧ Text.toLowerCase (method request) ≠ Text.toLowerCase (Verb.name verb)
     → route new_URL match_ verb pattern plugins h env segments request rest
       = ([], Normal None)).
Proof.
  rewrite route_unfold. split.
  - intros Hok.
    assert (method_accepts verb (method request) = true) as ->.
    { destruct Hok as [->|Heq]; [done|].
      unfold method_accepts. rewrite Heq, String.eqb_refl.
      by destruct verb. }
    by destruct (match_ segments (Text.split "/" pattern)).
  - intros [Hverb Hne].
    assert (method_accepts verb (method request) = false) as ->; [|done].
    unfold method_accepts. apply String.eqb_neq in Hne. rewrite Hne.
    by destruct verb.
Qed.

(** *** Registration order *)

(** C3. If registration [i] is the first in registration order whose method
    and pattern both match the request, the response of the dispatch is the
    one made from what that route does with the request, and no route
    registered after it is called or calls anything. *)
Theorem first_match_wins regs env request rest i r params :
  first_match match_ regs
    (Text.split "/" (pathname (new_URL (url request)))) request i r params →
  completion (handle new_URL (Router new_URL match_ regs) env request rest)
  = Normal (settle (completion
              (respond new_URL (reg_plugins r) (reg_handler r) params env
                 request rest)))
  ∧ Forall (λ e, (route_index e ≤ i)%nat)
           (trace (handle new_URL (Router new_URL match_ regs) env request
                     rest)).
Proof.
  intros Hfirst. rewrite handle_unfold, Router_map.
  cbn [completion trace fst snd].
  destruct (try_routes_first_match regs 0 env _ request rest i r params
              Hfirst) as (Hc & pre & Htr & Hpre).
  cbn zeta in Hc, Htr. rewrite Hc, Htr. split; [done|].
  apply Forall_app. split.
  - eapply Forall_impl; [exact Hpre|]. cbn. intros e [? _]. lia.
  - cbn [Nat.add]. do 2 (constructor; [cbn; lia|]).
    apply Forall_fmap, Forall_true. intros e. cbn. lia.
Qed.

(** *** The handler owns the response *)

(** C7. If a dispatch over registered routes calls the handler of route [i],
    that call is the last call of the dispatch (no route is called again or
    afterwards), no handler was called before it, and the response of the
    dispatch is made from what that handler returned or threw. *)
Theorem handler_owns_response regs env request rest pre i context post :
  trace (handle new_URL (Router new_URL match_ regs) env request rest)
  = pre ++ EvIn i (EvHandler context) :: post →
  post = []
  ∧ Forall (λ e, ¬ is_handler_call e) pre
  ∧ ∃ r, regs !! i = Some r
         ∧ completion (handle new_URL (Router new_URL match_ regs) env
                         request rest)
           = Normal (answer (reg_handler r env context rest)).
Proof. apply handle_handler_call. Qed.

(** *** The fallback response *)

(** C2, as the code has it.  When no registration matches the request,
    [handle] answers [new Response(null, { status: 500 })]; when the handler
    of a route is called and throws a value that is neither a response nor
    an error, [handle] answers [new Response(null, { status: 500 })] as
    well: the two responses have the same status and the same body. *)
Theorem fallback_same_as_opaque_failure regs env request rest
    regs' env' request' rest' i r context v :
  (∀ r0, r0 ∈ regs →
     structural_match match_ r0
       (Text.split "/" (pathname (new_URL (url request)))) request = None) →
  regs' !! i = Some r →
  EvIn i (EvHandler context)
    ∈ trace (handle new_URL (Router new_URL match_ regs') env' request'
               rest') →
  reg_handler r env' context rest' = Abrupt (ThrownOther v) →
  ∃ fallback failure,
    completion (handle new_URL (Router new_URL match_ regs) env request rest)
    = Normal fallback
    ∧ completion (handle new_URL (Router new_URL match_ regs') env' request'
                    rest')
      = Normal failure
    ∧ fallback = new_Response None 500
    ∧ failure = new_Response None 500
    ∧ ¬ distinguishable fallback failure.
Proof.
  intros Hnone Hr Hcall Hthrow.
  exists (new_Response None 500), (new_Response None 500).
  split_and!; [| |done|done|by intros [?|?]].
  - rewrite handle_unfold, Router_map. cbn [completion snd].
    by destruct (try_routes_no_match regs 0 env _ request rest Hnone)
      as [-> _].
  - apply list_elem_of_split in Hcall as (pre & post & Htrace).
    destruct (handle_handler_call _ _ _ _ _ _ _ _ Htrace)
      as (_ & _ & r' & Hr' & ->).
    simplify_eq. by rewrite Hthrow.
Qed.

(** *** Plugins: [Promise.all] and the inspection loop *)

Lemma call_plugins_fulfil plugins env request results j :
  plugin_results plugins env request results →
  ∃ promises,
    call_plugins env request j plugins
    = (EvPlugin <$> seq j (length plugins), Normal promises)
    ∧ Forall2 (λ promise v, outcome promise = Fulfilled v) promises results.
Proof.
  unfold plugin_results. intros Hres. revert j.
  induction Hres as [|p v plugins results (promise & Hp & Hv) _ IH];
    intros j.
  { by exists []. }
  destruct (IH (S j)) as (promises & Hcall & Hall).
  exists (promise :: promises). split; [|by constructor].
  cbn [call_plugins].
  rewrite bind_tell, bind_call, Hp, Hcall, (bind_normal (E:=Event Any)).
  cbn. by rewrite app_nil_r.
Qed.

Lemma Promise_all_fulfilled {A}
    (promises : list (Promise Any A)) (values : list A) :
  Forall2 (λ promise v, outcome promise = Fulfilled v) promises values →
  outcome (Promise_all promises) = Fulfilled values.
Proof.
  intros Hall.
  assert (earliest_rejection promises = None
          ∧ omap fulfilled_value promises = values) as [Hrej Hvals].
  { induction Hall as [|promise v promises values Hv _ [IH1 IH2]];
      [done|].
    split.
    - cbn [earliest_rejection]. by rewrite Hv.
    - change (omap fulfilled_value (promise :: promises))
        with (match fulfilled_value promise with
              | Some y => y :: omap fulfilled_value promises
              | None => omap fulfilled_value promises
              end).
      unfold fulfilled_value at 1. by rewrite Hv, IH2. }
  unfold Promise_all. rewrite Hrej. cbn. by rewrite Hvals.
Qed.

(** A rejection wins over every fulfilment, and among rejections the one
    that settles first wins: here the order in time does matter. *)
Lemma Promise_all_rejected {A} (promises : list (Promise Any A)) n t :
  earliest_rejection promises = Some (n, t) →
  outcome (Promise_all promises) = Rejected t
  ∧ ∃ promise, promise ∈ promises
               ∧ promise = {| settles_at := n; outcome := Rejected t |}
               ∧ Forall (λ other, match outcome other with
                                  | Rejected _ => (n ≤ settles_at other)%nat
                                  | Fulfilled _ => True
                                  end) promises.
Proof.
  intros Hrej. split; [unfold Promise_all; by rewrite Hrej|].
  revert n t Hrej.
  induction promises as [|[m [a|t0]] promises IH]; intros n t Hrej;
    cbn in Hrej; [done| |].
  - destruct (IH n t Hrej) as (promise & Hin & Heq & Hall).
    exists promise. split_and!; [by apply list_elem_of_further|done|by constructor].
  - destruct (earliest_rejection promises) as [[n' t']|] eqn:Hrest.
    + destruct (Nat.leb_spec m n'); simplify_eq.
      * destruct (IH n' t' eq_refl) as (_ & _ & _ & Hall).
        eexists. split_and!; [apply list_elem_of_here|done|].
        constructor; [cbn; lia|].
        eapply Forall_impl; [exact Hall|].
        intros other. cbn. destruct (outcome other); [done|lia].
      * destruct (IH n t eq_refl) as (promise & Hin & Heq & Hall).
        exists promise. split_and!; [by apply list_elem_of_further|done|].
        constructor; [cbn; lia|done].
    + simplify_eq. eexists. split_and!; [apply list_elem_of_here|done|].
      constructor; [cbn; lia|].
      clear IH. induction promises as [|[m' [a|t']] promises IH];
        cbn in Hrest |- *; [done| |].
      * constructor; [done|]. by apply IH.
      * by destruct (earliest_rejection promises) as [[? ?]|];
          [destruct (Nat.leb _ _)|].
Qed.

Lemma inspect_fields context (fieldss : list (gmap string (Value Any))) :
  inspect context (PFields <$> fieldss)
  = inr (foldl Object_assign context fieldss).
Proof.
  revert context. induction fieldss as [|fields fieldss IH];
    intros context; [done|].
  cbn. apply IH.
Qed.


(** [respond] when every plugin's promise fulfils. *)
Lemma respond_fulfilled plugins h params env request rest results :
  plugin_results plugins env request results →
  respond new_URL plugins h params env request rest
  = match inspect (initial_context new_URL params request) results with
    | inl response =>
        (EvPlugin <$> seq 0 (length plugins), Normal (Some response))
    | inr context =>
        ((EvPlugin <$> seq 0 (length plugins)) ++ [EvHandler context],
         match h env context rest with
         | Normal response => Normal (Some response)
         | Abrupt t => Abrupt t
         end)
    end.
Proof.
  intros Hres.
  destruct (call_plugins_fulfil plugins env request results 0 Hres)
    as (promises & Hcall & Hall).
  unfold respond. rewrite Hcall, (bind_normal (E:=Event Any)).
  unfold await. rewrite (Promise_all_fulfilled _ _ Hall), bind_ret.
  destruct (inspect _ results) as [response|context].
  - cbn. by rewrite app_nil_r.
  - rewrite bind_tell, bind_call.
    by destruct (h env context rest).
Qed.

(** *** The merge of plugin fields *)

Lemma merge_lookup_frame context (fieldss : list (gmap string (Value Any)))
    key :
  Forall (λ fields, fields !! key = None) fieldss →
  foldl Object_assign context fieldss !! key = context !! key.
Proof.
  intros Hnone. revert context.
  induction Hnone as [|fields fieldss Hfields _ IH]; intros context;
    [done|].
  cbn. rewrite IH. unfold Object_assign. rewrite lookup_union_r; [done|].
  apply lookup_delete_None. by right.
Qed.

Lemma merge_lookup_last context
    (before : list (gmap string (Value Any))) fields after key v :
  key ≠ "__proto__" →
  fields !! key = Some v →
  Forall (λ fields', fields' !! key = None) after →
  foldl Object_assign context (before ++ fields :: after) !! key = Some v.
Proof.
  intros Hkey Hv Hafter. rewrite foldl_app. cbn.
  rewrite merge_lookup_frame by done.
  unfold Object_assign. apply lookup_union_Some_l.
  by rewrite lookup_delete_ne.
Qed.

(** The key [__proto__] of a record is never stored. *)
Lemma merge_lookup_proto context
    (fieldss : list (gmap string (Value Any))) :
  foldl Object_assign context fieldss !! "__proto__"
  = context !! "__proto__".
Proof.
  revert context. induction fieldss as [|fields fieldss IH];
    intros context; [done|].
  cbn. rewrite IH. unfold Object_assign.
  by rewrite lookup_union_r by apply lookup_delete_eq.
Qed.

(** On records without that key the assignment is the union of maps. *)
Lemma merge_union context (fieldss : list (gmap string (Value Any))) :
  Forall (λ fields, fields !! "__proto__" = None) fieldss →
  foldl Object_assign context fieldss
  = foldl (λ target source, source ∪ target) context fieldss.
Proof.
  intros Hnone. revert context.
  induction Hnone as [|fields fieldss Hfields _ IH]; intros context;
    [done|].
  cbn. rewrite IH. unfold Object_assign. by rewrite delete_id.
Qed.


(** *** Plugin short-circuit *)


(** *** Merging plugin fields into the context *)

(** C5, as the code has it.  Take the first route that matches the request
    and suppose every one of its plugins yields a record of fields (none
    yields a response) and no record has an own key [__proto__].  Then the
    handler is called, as the last call of the dispatch, with the context
    obtained by assigning the records into [{ params, url, request }] in
    declaration order, which is the union of the records over that literal,
    later records first; the response is made from what the handler does
    with it.  In that context a key holds the value given by the last
    plugin, in declaration order, that mentions it, and the initial value
    when no plugin mentions it. *)
Theorem plugin_fields_merged regs env request rest i r params
    (fieldss : list (gmap string (Value Any))) :
  first_match match_ regs
    (Text.split "/" (pathname (new_URL (url request)))) request i r params →
  plugin_results (reg_plugins r) env request (PFields <$> fieldss) →
  Forall (λ fields, fields !! "__proto__" = None) fieldss →
  let context :=
    foldl Object_assign (initial_context new_URL params request) fieldss in
  (∃ pre,
     trace (handle new_URL (Router new_URL match_ regs) env request rest)
     = pre ++ [EvIn i (EvHandler context)])
  ∧ completion (handle new_URL (Router new_URL match_ regs) env request rest)
    = Normal (answer (reg_handler r env context rest))
  ∧ context
    = foldl (λ target source, source ∪ target)
        (initial_context new_URL params request) fieldss
  ∧ (∀ key before fields after v,
       fieldss = before ++ fields :: after →
       fields !! key = Some v →
       Forall (λ fields', fields' !! key = None) after →
       context !! key = Some v)
  ∧ (∀ key,
       Forall (λ fields, fields !! key = None) fieldss →
       context !! key = initial_context new_URL params request !! key).
Proof.
  intros Hfirst Hres Hplain context. split_and!.
  - rewrite handle_unfold, Router_map. cbn [trace fst].
    destruct (try_routes_first_match regs 0 env _ request rest i r params
                Hfirst) as (_ & pre & Htr & _).
    cbn zeta in Htr. rewrite Htr.
    rewrite (respond_fulfilled _ _ _ _ _ _ _ Hres), inspect_fields.
    cbn [trace fst Nat.add]. rewrite fmap_app. cbn [fmap list_fmap].
    eexists. rewrite !app_comm_cons, !(assoc_L (++)). reflexivity.
  - rewrite handle_unfold, Router_map. cbn [completion snd].
    destruct (try_routes_first_match regs 0 env _ request rest i r params
                Hfirst) as (Hc & _).
    cbn zeta in Hc. rewrite Hc.
    rewrite (respond_fulfilled _ _ _ _ _ _ _ Hres), inspect_fields.
    cbn [completion snd]. fold context.
    by destruct (reg_handler r env context rest).
  - by apply merge_union.
  - intros key before fields after v -> Hv Hafter.
    apply merge_lookup_last; [|done|done].
    intros ->. apply Forall_app in Hplain as [_ Hplain].
    apply Forall_cons in Hplain as [Hfields _]. congruence.
  - intros key Hnone. by apply merge_lookup_frame.
Qed.


(** *** Repeated dispatch *)

Lemma call_plugins_pure plugins env env' request j :
  Forall pure_plugin plugins →
  call_plugins env request j plugins = call_plugins env' request j plugins.
Proof.
  intros Hpure. revert j.
  induction Hpure as [|p plugins Hp _ IH]; intros j; [done|].
  cbn [call_plugins]. by rewrite (Hp env env'), IH.
Qed.

Lemma respond_pure plugins h params env env' request rest :
  Forall pure_plugin plugins → pure_handler h →
  respond new_URL plugins h params env request rest
  = respond new_URL plugins h params env' request rest.
Proof.
  intros Hplugins Hh. unfold respond.
  rewrite (call_plugins_pure plugins env env') by done.
  destruct (call_plugins env' request 0 plugins) as [tr [promises|t]];
    [|done].
  rewrite !(bind_normal (E:=Event Any)). unfold await.
  destruct (outcome (Promise_all promises)) as [results|t]; [|done].
  rewrite !bind_ret.
  destruct (inspect _ results) as [response|context]; [done|].
  by rewrite !bind_tell, !bind_call, (Hh env env').
Qed.

Lemma try_routes_pure regs i0 env env' segments request rest :
  Forall pure_registration regs →
  try_routes (route_of new_URL match_ <$> regs) i0 env segments request rest
  = try_routes (route_of new_URL match_ <$> regs) i0 env' segments request
      rest.
Proof.
  intros Hpure. revert i0.
  induction Hpure as [|r regs [Hplugins Hh] _ IH]; intros i0; [done|].
  rewrite !try_routes_regs_cons.
  destruct (structural_match match_ r segments request) as [params|].
  - cbn zeta. by rewrite (respond_pure _ _ _ env env').
  - cbn zeta. by rewrite IH.
Qed.

(** C9. When the plugins and handlers of all registered routes are pure (what
    they yield depends on their arguments only), two dispatches of the same
    request against the same route table, in whatever state of the world
    each one happens, make the same calls and give the same response. *)
Theorem dispatch_repeatable regs env1 env2 request rest :
  Forall pure_registration regs →
  handle new_URL (Router new_URL match_ regs) env1 request rest
  = handle new_URL (Router new_URL match_ regs) env2 request rest
  ∧ ∃ response,
      completion (handle new_URL (Router new_URL match_ regs) env1 request
                    rest) = Normal response
      ∧ completion (handle new_URL (Router new_URL match_ regs) env2 request
                      rest) = Normal response.
Proof.
  intros Hpure. rewrite !handle_unfold, Router_map.
  rewrite (try_routes_pure regs 0 env1 env2) by done.
  split; [done|]. by eexists.
Qed.

End RouterFacts.

(** ** The statements at concrete routers *)

Section Examples.
Import Example.

(** The matcher on the paths of section 8 of the specification. *)
Example match_users_42 :
  Match.match_ (Text.split "/" "/users/42") (Text.split "/" "/users/:id")
  = Some {[ "id" := "42" ]}.
Proof. by vm_compute. Qed.

Example match_users_42_extra :
  Match.match_ (Text.split "/" "/users/42/extra")
    (Text.split "/" "/users/:id") = None.
Proof. by vm_compute. Qed.

Example match_files_tail :
  Match.match_ (Text.split "/" "/files/a/b/c") (Text.split "/" "/files/*")
  = Some {[ "*" := "a/b/c" ]}.
Proof. by vm_compute. Qed.

(** [/users/:id] registered before [/users/me]: a request for [/users/me]
    is answered by the first one, and the second route is never called. *)
Example users_id_before_users_me :
  dispatch [by_id; me] get_users_me
  = ([EvRoute 0; EvIn 0 EvMatch;
      EvIn 0 (EvHandler
                (initial_context new_URL {[ "id" := "me" ]} get_users_me))],
     Normal (new_Response (Some "by id") 200)).
Proof. by vm_compute. Qed.

(** A [post] route does not see a [GET] request: the matcher is not
    called. *)
Example post_route_skips_get :
  route_of new_URL Match.match_ create 0 (segments_of get_users_me)
    get_users_me tt
  = ([], Normal None).
Proof. by vm_compute. Qed.

(** Rejections are not ordered by declaration: [Promise.all] takes the one
    that settles first. *)
Example earliest_rejection_wins :
  completion
    (dispatch
       [{| reg_verb := Verb.get; reg_pattern := "/users/me";
           reg_plugins := [fails 5 (ThrownError "slow");
                           fails 1 (ThrownError "fast")];
           reg_handler := reply 200 "me" |}]
       get_users_me)
  = Normal (new_Response (Some "fast") 500).
Proof. by vm_compute. Qed.

(** Two rejections race: which one the response reports depends on when
    the plugins settle. *)
Example racing_rejections_not_repeatable :
  let table := [{| reg_verb := Verb.get; reg_pattern := "/users/me";
                   reg_plugins := [fails_late (ThrownError "first");
                                   fails 4 (ThrownError "second")];
                   reg_handler := reply 200 "me" |}] in
  completion (dispatch_at 2 table get_users_me)
  = Normal (new_Response (Some "first") 500)
  ∧ completion (dispatch_at 9 table get_users_me)
    = Normal (new_Response (Some "second") 500).
Proof. by vm_compute. Qed.

(** A handler that reads the clock is not repeatable. *)
Example impure_handler_not_repeatable :
  let table := [{| reg_verb := Verb.get; reg_pattern := "/users/me";
                   reg_plugins := []; reg_handler := flaky |}] in
  completion (dispatch_at 0 table get_users_me)
  ≠ completion (dispatch_at 1 table get_users_me).
Proof. by vm_compute. Qed.

End Examples.

(** ** The theorems applied *)

Section Applied.
Import Example.

(** C2 as the specification states it fails: with an empty route table the
    fallback response, and with a route whose handler throws the number 7
    the failure response, have the same status and the same body. *)
Lemma fallback_not_distinguishable :
  ∃ fallback failure,
    completion (dispatch [] get_users_me) = Normal fallback
    ∧ completion (dispatch [broken] get_users_me) = Normal failure
    ∧ ¬ distinguishable fallback failure.
Proof.
  exists (new_Response None 500), (new_Response None 500).
  split_and!; [by vm_compute|by vm_compute|].
  by intros [Hstatus|Hbody].
Qed.

Lemma fallback_same_as_opaque_failure_witness :
  (∀ r0 : Registration Any Env Rest, r0 ∈ [] →
     structural_match Match.match_ r0 (segments_of get_users_me)
       get_users_me = None)
  ∧ [broken] !! 0 = Some broken
  ∧ EvIn 0 (EvHandler (initial_context new_URL ∅ get_users_me))
      ∈ trace (dispatch [broken] get_users_me)
  ∧ reg_handler broken 0 (initial_context new_URL ∅ get_users_me) tt
    = Abrupt (ThrownOther 7)
  ∧ ∃ fallback failure,
      completion (dispatch [] get_users_me) = Normal fallback
      ∧ completion (dispatch [broken] get_users_me) = Normal failure
      ∧ fallback = new_Response None 500
      ∧ failure = new_Response None 500
      ∧ ¬ distinguishable fallback failure.
Proof.
  assert (Hnone : ∀ r0 : Registration Any Env Rest, r0 ∈ [] →
            structural_match Match.match_ r0 (segments_of get_users_me)
              get_users_me = None).
  { intros r0 Hin. by apply elem_of_nil in Hin. }
  assert (Hcall : EvIn 0 (EvHandler (initial_context new_URL ∅ get_users_me))
                    ∈ trace (dispatch [broken] get_users_me)).
  { vm_compute. do 2 apply list_elem_of_further. apply list_elem_of_here. }
  split_and!; [exact Hnone|reflexivity|exact Hcall|reflexivity|].
  exact (fallback_same_as_opaque_failure new_URL Match.match_
           [] 0 get_users_me tt [broken] 0 get_users_me tt 0 broken
           (initial_context new_URL ∅ get_users_me) 7
           Hnone eq_refl Hcall eq_refl).
Defined.

Lemma first_match_wins_witness :
  first_match Match.match_ [by_id; me] (segments_of get_users_me)
    get_users_me 0 by_id {[ "id" := "me" ]}
  ∧ completion (dispatch [by_id; me] get_users_me)
    = Normal (new_Response (Some "by id") 200)
  ∧ Forall (λ e, (route_index e ≤ 0)%nat)
           (trace (dispatch [by_id; me] get_users_me)).
Proof.
  assert (Hfirst : first_match Match.match_ [by_id; me]
                     (segments_of get_users_me) get_users_me 0 by_id
                     {[ "id" := "me" ]}).
  { split_and!; [reflexivity|by vm_compute|]. intros j r' Hj. lia. }
  split; [exact Hfirst|].
  exact (first_match_wins new_URL Match.match_ [by_id; me] 0 get_users_me
           tt 0 by_id {[ "id" := "me" ]} Hfirst).
Defined.

Lemma handler_owns_response_witness :
  trace (dispatch [by_id; me] get_users_me)
  = [EvRoute 0; EvIn 0 EvMatch]
      ++ EvIn 0 (EvHandler
                   (initial_context new_URL {[ "id" := "me" ]}
                      get_users_me)) :: []
  ∧ ([] : list (DispatchEvent Any)) = []
  ∧ Forall (λ e : DispatchEvent Any, ¬ is_handler_call e)
           [EvRoute 0; EvIn 0 EvMatch]
  ∧ ∃ r, [by_id; me] !! 0 = Some r
         ∧ completion (dispatch [by_id; me] get_users_me)
           = Normal (answer
                       (reg_handler r 0
                          (initial_context new_URL {[ "id" := "me" ]}
                             get_users_me) tt)).
Proof.
  assert (Htrace : trace (dispatch [by_id; me] get_users_me)
            = [EvRoute 0; EvIn 0 EvMatch]
                ++ EvIn 0 (EvHandler
                             (initial_context new_URL {[ "id" := "me" ]}
                                get_users_me)) :: []).
  { by vm_compute. }
  split; [exact Htrace|].
  exact (handler_owns_response new_URL Match.match_ [by_id; me] 0
           get_users_me tt [EvRoute 0; EvIn 0 EvMatch] 0
           (initial_context new_URL {[ "id" := "me" ]} get_users_me) []
           Htrace).
Defined.


Example enriched_context_merged :
  foldl Object_assign
    (initial_context new_URL {[ "id" := "42" ]} get_users_42)
    [session_fields; override_fields]
  = enriched_context.
Proof. by vm_compute. Qed.

(** C5 as the specification states it fails: the plugin of [polluted]
    yields a record with the own key [__proto__], the handler is called,
    and its context does not hold the plugin's value under that key. *)
Lemma proto_field_not_merged :
  first_match Match.match_ [polluted] (segments_of get_users_me)
    get_users_me 0 polluted ∅
  ∧ plugin_results (reg_plugins polluted) 0 get_users_me
      (PFields <$> [polluted_fields])
  ∧ polluted_fields !! "__proto__" = Some (VAny 5)
  ∧ ∃ pre context,
      trace (dispatch [polluted] get_users_me)
      = pre ++ [EvIn 0 (EvHandler context)]
      ∧ context !! "user" = Some (VAny 1)
      ∧ context !! "__proto__" ≠ Some (VAny 5).
Proof.
  split_and!.
  - split_and!; [reflexivity|by vm_compute|]. intros j r' Hj. lia.
  - repeat constructor; eexists; split; reflexivity.
  - by vm_compute.
  - exists [EvRoute 0; EvIn 0 EvMatch; EvIn 0 (EvPlugin 0)],
      (foldl Object_assign (initial_context new_URL ∅ get_users_me)
         [polluted_fields]).
    split_and!; by vm_compute.
Qed.

Lemma plugin_fields_merged_witness :
  first_match Match.match_ [create; enriched] (segments_of get_users_42)
    get_users_42 1 enriched {[ "id" := "42" ]}
  ∧ plugin_results (reg_plugins enriched) 0 get_users_42
      (PFields <$> [session_fields; override_fields])
  ∧ Forall (λ fields : gmap string (Value Any),
              fields !! "__proto__" = None)
           [session_fields; override_fields]
  ∧ let context :=
      foldl Object_assign
        (initial_context new_URL {[ "id" := "42" ]} get_users_42)
        [session_fields; override_fields] in
    (∃ pre, trace (dispatch [create; enriched] get_users_42)
            = pre ++ [EvIn 1 (EvHandler context)])
    ∧ completion (dispatch [create; enriched] get_users_42)
      = Normal (answer (reg_handler enriched 0 context tt))
    ∧ context
      = foldl (λ target source, source ∪ target)
          (initial_context new_URL {[ "id" := "42" ]} get_users_42)
          [session_fields; override_fields]
    ∧ (∀ key before fields after v,
         [session_fields; override_fields] = before ++ fields :: after →
         fields !! key = Some v →
         Forall (λ fields', fields' !! key = None) after →
         context !! key = Some v)
    ∧ (∀ key,
         Forall (λ fields, fields !! key = None)
                [session_fields; override_fields] →
         context !! key
         = initial_context new_URL {[ "id" := "42" ]} get_users_42 !! key).
Proof.
  assert (Hfirst : first_match Match.match_ [create; enriched]
                     (segments_of get_users_42) get_users_42 1 enriched
                     {[ "id" := "42" ]}).
  { split_and!; [reflexivity|by vm_compute|].
    intros [|j] r' Hj Hr'; [|lia]. injection Hr' as <-. by vm_compute. }
  assert (Hres : plugin_results (reg_plugins enriched) 0 get_users_42
                   (PFields <$> [session_fields; override_fields])).
  { repeat constructor; eexists; split; reflexivity. }
  assert (Hplain : Forall (λ fields : gmap string (Value Any),
                             fields !! "__proto__" = None)
                     [session_fields; override_fields]).
  { repeat constructor; by vm_compute. }
  split_and!; [exact Hfirst|exact Hres|exact Hplain|].
  exact (plugin_fields_merged new_URL Match.match_ [create; enriched] 0
           get_users_42 tt 1 enriched {[ "id" := "42" ]}
           [session_fields; override_fields] Hfirst Hres Hplain).
Defined.


Lemma dispatch_repeatable_witness :
  Forall pure_registration [by_id; me; guarded]
  ∧ dispatch_at 3 [by_id; me; guarded] get_users_me
    = dispatch_at 8 [by_id; me; guarded] get_users_me
  ∧ ∃ response,
      completion (dispatch_at 3 [by_id; me; guarded] get_users_me)
      = Normal response
      ∧ completion (dispatch_at 8 [by_id; me; guarded] get_users_me)
        = Normal response.
Proof.
  assert (Hpure : Forall pure_registration [by_id; me; guarded]).
  { repeat constructor; by intros ?. }
  split; [exact Hpure|].
  exact (dispatch_repeatable new_URL Match.match_ [by_id; me; guarded] 3 8
           get_users_me tt Hpure).
Defined.

Lemma segment_count_mismatch_witness :
  last (Text.split "/" "/users/:id") ≠ Some "*"
  ∧ length (Text.split "/" "/users/42/extra")
    ≠ length (Text.split "/" "/users/:id")
  ∧ Match.match_ (Text.split "/" "/users/42/extra")
      (Text.split "/" "/users/:id") = None
  ∧ Match.walk (Match.compile_segments (Text.split "/" "/users/:id"))
      (Text.split "/" "/users/42/extra") ∅ = None.
Proof.
  assert (Hlast : last (Text.split "/" "/users/:id") ≠ Some "*").
  { vm_compute. intros [=]. }
  assert (Hlen : length (Text.split "/" "/users/42/extra")
                 ≠ length (Text.split "/" "/users/:id")).
  { vm_compute. lia. }
  split_and!; [exact Hlast|exact Hlen|..];
    apply (MatchFacts.segment_count_mismatch "/users/:id" "/users/42/extra"
             Hlast Hlen).
Defined.

End Applied.

(** ** More about the router *)

Section RouterMore.
Context {Any Env Rest : Type}.
Variable new_URL : string → URL.
Variable match_ : list string → list string → option (gmap string string).

Implicit Types (plugins : list (Plugin Any Env)) (h : Handler Any Env Rest).
Implicit Types (r : Registration Any Env Rest).
Implicit Types (regs more : list (Registration Any Env Rest)).
Implicit Types (routes : list (Route Any Env Rest)).
Implicit Types (env : Env) (request : Request) (rest : Rest).
Implicit Types (segments : list string) (params : gmap string string).
Implicit Types (promises : list (Promise Any (PluginResult Any))).

(** *** The route table *)

(** X1. A chain of registrations on a fresh router leaves one route per
    registration in the table, in registration order: registering once more
    appends one route and leaves the earlier routes where they were. *)
Theorem Router_table regs r :
  Router new_URL match_ (regs ++ [r])
  = Router new_URL match_ regs ++ [route_of new_URL match_ r]
  ∧ length (Router new_URL match_ regs) = length regs
  ∧ ∀ i, Router new_URL match_ regs !! i
         = route_of new_URL match_ <$> regs !! i.
Proof.
  rewrite !Router_map. split_and!.
  - by rewrite fmap_app.
  - by rewrite length_fmap.
  - intros i. by rewrite list_lookup_fmap.
Qed.

(** *** What a route declines *)

(** X2. A route answers [null] exactly when the method test or the pattern
    fails; once the request matched, the route returns a response or throws,
    whatever its plugins and its handler do. *)
Theorem route_declines_iff r env segments request rest :
  completion (route_of new_URL match_ r env segments request rest)
  = Normal None
  ↔ structural_match match_ r segments request = None.
Proof.
  rewrite route_of_unfold.
  destruct (structural_match match_ r segments request) as [params|];
    cbn [completion snd]; [|done].
  split; [|done]. intros Hnull.
  by destruct (respond_cases new_URL (reg_plugins r) (reg_handler r) params
                 env request rest) as [Hnone _].
Qed.

(** *** The calls of a dispatch, exactly *)

Lemma try_routes_app_skip regs more i0 env segments request rest :
  (∀ r, r ∈ regs → structural_match match_ r segments request = None) →
  try_routes (route_of new_URL match_ <$> (regs ++ more)) i0 env segments
    request rest
  = let next := try_routes (route_of new_URL match_ <$> more)
                  (i0 + length regs) env segments request rest in
    (skipped_events request i0 regs ++ trace next, completion next).
Proof.
  revert i0. induction regs as [|r regs IH]; intros i0 Hnone.
  { cbn. rewrite Nat.add_0_r. apply run_eta. }
  change ((r :: regs) ++ more) with (r :: (regs ++ more)).
  rewrite try_routes_regs_cons, (Hnone r) by left.
  rewrite IH by (intros r' Hr'; apply Hnone; by right).
  cbn [trace completion fst snd skipped_events length].
  replace (S i0 + length regs) with (i0 + S (length regs)) by lia.
  by rewrite <- app_comm_cons, <- app_assoc.
Qed.

Lemma first_match_split regs segments request i r params :
  first_match match_ regs segments request i r params →
  regs = take i regs ++ r :: drop (S i) regs
  ∧ length (take i regs) = i
  ∧ structural_match match_ r segments request = Some params
  ∧ ∀ r', r' ∈ take i regs →
      structural_match match_ r' segments request = None.
Proof.
  intros (Hi & Hm & Hbefore).
  pose proof (lookup_lt_Some _ _ _ Hi) as Hlt.
  split_and!; [|by rewrite length_take; lia|done|].
  - by rewrite <- (take_drop_middle regs i r) at 1.
  - intros r' [j Hj]%list_elem_of_lookup.
    pose proof (lookup_lt_Some _ _ _ Hj) as Hjlt.
    rewrite length_take in Hjlt.
    rewrite lookup_take_lt in Hj by lia.
    apply (Hbefore j r'); [lia|done].
Qed.

Lemma try_routes_first_match_exact regs i0 env segments request rest i r
    params :
  first_match match_ regs segments request i r params →
  try_routes (route_of new_URL match_ <$> regs) i0 env segments request rest
  = let run := respond new_URL (reg_plugins r) (reg_handler r) params env
                 request rest in
    (skipped_events request i0 (take i regs)
       ++ EvRoute (i0 + i) :: EvIn (i0 + i) EvMatch
            :: (EvIn (i0 + i) <$> trace run),
     completion run).
Proof.
  intros Hfirst.
  destruct (first_match_split _ _ _ _ _ _ Hfirst)
    as (Hsplit & Hlen & Hm & Hbefore).
  rewrite Hsplit at 1.
  rewrite try_routes_app_skip by done.
  rewrite Hlen, try_routes_regs_cons, Hm. reflexivity.
Qed.

(** X3. When no registration matches the request, the dispatch calls every
    route once, in registration order, each route calls the matcher when its
    method test passes, and nothing else is called: no plugin, no handler.
    The answer is [new Response(null, { status: 500 })]. *)
Theorem no_match_dispatch regs env request rest :
  (∀ r, r ∈ regs →
     structural_match match_ r
       (Text.split "/" (pathname (new_URL (url request)))) request = None) →
  handle new_URL (Router new_URL match_ regs) env request rest
  = (skipped_events request 0 regs, Normal (new_Response None 500)).
Proof.
  intros Hnone. rewrite handle_unfold, Router_map. cbn zeta.
  rewrite <- (app_nil_r regs) at 1 2.
  rewrite try_routes_app_skip by done.
  cbn. by rewrite !app_nil_r.
Qed.

(** X4. When registration [i] is the first that matches, the dispatch calls
    the routes before it once each, in order (the matcher being called by
    those whose method test passes), then route [i] and its matcher, then
    whatever that route does with the request; the response is made from
    that.  Nothing else is called. *)
Theorem first_match_dispatch regs env request rest i r params :
  first_match match_ regs
    (Text.split "/" (pathname (new_URL (url request)))) request i r params →
  handle new_URL (Router new_URL match_ regs) env request rest
  = (skipped_events request 0 (take i regs)
       ++ EvRoute i :: EvIn i EvMatch
            :: (EvIn i <$> trace (respond new_URL (reg_plugins r)
                                    (reg_handler r) params env request rest)),
     Normal (settle (completion
               (respond new_URL (reg_plugins r) (reg_handler r) params env
                  request rest)))).
Proof.
  intros Hfirst. rewrite handle_unfold, Router_map. cbn zeta.
  by rewrite (try_routes_first_match_exact _ 0 _ _ _ _ _ _ _ Hfirst).
Qed.

(** *** Growing the table *)

Lemma first_match_app regs more segments request i r params :
  first_match match_ regs segments request i r params →
  first_match match_ (regs ++ more) segments request i r params.
Proof.
  intros (Hi & Hm & Hbefore).
  pose proof (lookup_lt_Some _ _ _ Hi) as Hlt.
  split_and!; [by rewrite lookup_app_l|done|].
  intros j r' Hj Hr'. rewrite lookup_app_l in Hr' by lia.
  by apply (Hbefore j r').
Qed.

(** X5. Registering further routes does not change the dispatch of a request
    that a route already in the table matches: the same calls are made and
    the same response is given. *)
Theorem later_routes_irrelevant regs more env request rest i r params :
  first_match match_ regs
    (Text.split "/" (pathname (new_URL (url request)))) request i r params →
  handle new_URL (Router new_URL match_ (regs ++ more)) env request rest
  = handle new_URL (Router new_URL match_ regs) env request rest.
Proof.
  intros Hfirst.
  pose proof (first_match_app _ more _ _ _ _ _ Hfirst) as Hfirst'.
  rewrite !handle_unfold, !Router_map. cbn zeta.
  rewrite (try_routes_first_match_exact _ 0 _ _ _ _ _ _ _ Hfirst).
  rewrite (try_routes_first_match_exact _ 0 _ _ _ _ _ _ _ Hfirst').
  destruct Hfirst as (Hi & _).
  pose proof (lookup_lt_Some _ _ _ Hi) as Hlt.
  by rewrite take_app_le by lia.
Qed.

Lemma try_routes_completion_index routes i j env segments request rest :
  completion (try_routes routes i env segments request rest)
  = completion (try_routes routes j env segments request rest).
Proof.
  revert i j. induction routes as [|route routes IH]; intros i j; [done|].
  rewrite !try_routes_cons. cbn zeta.
  destruct (completion (route env segments request rest)) as [[?|]|?];
    cbn [completion snd]; [done| |done].
  apply IH.
Qed.

(** X6. Routes that do not match the request are transparent: the response of
    a table that starts with such routes is the response of the table without
    them, and the calls of the dispatch start with one call to each of
    them. *)
Theorem unmatched_prefix_transparent regs more env request rest :
  (∀ r, r ∈ regs →
     structural_match match_ r
       (Text.split "/" (pathname (new_URL (url request)))) request = None) →
  completion (handle new_URL (Router new_URL match_ (regs ++ more)) env
                request rest)
  = completion (handle new_URL (Router new_URL match_ more) env request rest)
  ∧ ∃ others,
      trace (handle new_URL (Router new_URL match_ (regs ++ more)) env
               request rest)
      = skipped_events request 0 regs ++ others.
Proof.
  intros Hnone. rewrite !handle_unfold, !Router_map. cbn zeta.
  rewrite try_routes_app_skip by done.
  cbn [completion trace fst snd]. split; [|by eexists].
  by rewrite (try_routes_completion_index _ (0 + length regs) 0).
Qed.

(** *** Plugins that throw, plugins that reject *)

Lemma call_plugins_promises plugins promises env request j :
  Forall2 (λ p promise, p env request = Normal promise) plugins promises →
  call_plugins env request j plugins
  = (EvPlugin <$> seq j (length plugins), Normal promises).
Proof.
  intros Hcalls. revert j.
  induction Hcalls as [|p promise plugins promises Hp _ IH]; intros j;
    [done|].
  cbn [call_plugins].
  rewrite bind_tell, bind_call, Hp, IH, (bind_normal (E:=Event Any)).
  cbn. by rewrite app_nil_r.
Qed.

Lemma call_plugins_throw (before after : list (Plugin Any Env)) p t env
    request j :
  Forall (λ q, ∃ promise, q env request = Normal promise) before →
  p env request = Abrupt t →
  call_plugins env request j (before ++ p :: after)
  = (EvPlugin <$> seq j (S (length before)), Abrupt t).
Proof.
  intros Hbefore Hp. revert j.
  induction Hbefore as [|q before [promise Hq] _ IH]; intros j.
  - cbn [call_plugins app]. by rewrite bind_tell, bind_call, Hp.
  - cbn [call_plugins app]. by rewrite bind_tell, bind_call, Hq, IH.
Qed.

(** [respond] when every plugin call returns a promise. *)
Lemma respond_promises plugins h params env request rest promises :
  Forall2 (λ p promise, p env request = Normal promise) plugins promises →
  respond new_URL plugins h params env request rest
  = match outcome (Promise_all promises) with
    | Rejected t => (EvPlugin <$> seq 0 (length plugins), Abrupt t)
    | Fulfilled results =>
        match inspect (initial_context new_URL params request) results with
        | inl response =>
            (EvPlugin <$> seq 0 (length plugins), Normal (Some response))
        | inr context =>
            ((EvPlugin <$> seq 0 (length plugins)) ++ [EvHandler context],
             match h env context rest with
             | Normal response => Normal (Some response)
             | Abrupt t => Abrupt t
             end)
        end
    end.
Proof.
  intros Hcalls. unfold respond.
  rewrite (call_plugins_promises _ _ _ _ 0 Hcalls).
  rewrite (bind_normal (E:=Event Any)). unfold await.
  destruct (outcome (Promise_all promises)) as [results|t].
  - rewrite bind_ret.
    destruct (inspect _ results) as [response|context].
    + cbn. by rewrite app_nil_r.
    + rewrite bind_tell, bind_call. by destruct (h env context rest).
  - cbn. by rewrite app_nil_r.
Qed.

(** X7. When none of the plugin calls of a matched route throws, every
    plugin is called exactly once, in declaration order, right after the
    match; the only call that can follow is the call of the handler.  This
    holds whatever the plugins yield: a plugin that answers with a response,
    or whose promise rejects, does not keep the later plugins from being
    called. *)
Theorem plugins_all_called r env segments request rest params promises :
  structural_match match_ r segments request = Some params →
  Forall2 (λ p promise, p env request = Normal promise) (reg_plugins r)
    promises →
  ∃ tail,
    trace (route_of new_URL match_ r env segments request rest)
    = EvMatch :: (EvPlugin <$> seq 0 (length (reg_plugins r))) ++ tail
    ∧ (tail = [] ∨ ∃ context, tail = [EvHandler context]).
Proof.
  intros Hmatch Hcalls. rewrite route_of_unfold, Hmatch.
  rewrite (respond_promises _ _ _ _ _ _ _ Hcalls). cbn [trace fst].
  destruct (outcome (Promise_all promises)) as [results|t].
  - destruct (inspect _ results) as [response|context]; cbn [trace fst].
    + exists []. rewrite app_nil_r. by split; [|left].
    + exists [EvHandler context]. split; [done|right]. by eexists.
  - exists []. cbn [trace fst]. rewrite app_nil_r. by split; [|left].
Qed.

(** X8. When the call of a plugin of the first matching route throws, the
    plugins declared after it are not called, the handler is not called, and
    the response is made from the thrown value, whatever the promises of the
    plugins declared before it do. *)
Theorem plugin_throw_ends_dispatch regs env request rest i r params
    (before after : list (Plugin Any Env)) p t :
  first_match match_ regs
    (Text.split "/" (pathname (new_URL (url request)))) request i r params →
  reg_plugins r = before ++ p :: after →
  Forall (λ q, ∃ promise, q env request = Normal promise) before →
  p env request = Abrupt t →
  handle new_URL (Router new_URL match_ regs) env request rest
  = (skipped_events request 0 (take i regs)
       ++ EvRoute i :: EvIn i EvMatch
            :: (EvIn i <$> (EvPlugin <$> seq 0 (S (length before)))),
     Normal (on_error t)).
Proof.
  intros Hfirst Hplugins Hbefore Hp.
  rewrite handle_unfold, Router_map. cbn zeta.
  rewrite (try_routes_first_match_exact _ 0 _ _ _ _ _ _ _ Hfirst).
  cbn zeta. unfold respond.
  by rewrite Hplugins, (call_plugins_throw _ _ _ _ _ _ 0 Hbefore Hp).
Qed.

Lemma earliest_rejection_later {A} (promises : list (Promise Any A)) n :
  Forall (λ other, match outcome other with
                   | Rejected _ => n < settles_at other
                   | Fulfilled _ => True
                   end) promises →
  match earliest_rejection promises with
  | Some (n', _) => n < n'
  | None => True
  end.
Proof.
  induction 1 as [|[m [a|t]] promises Hm _ IH]; cbn in *; [done|done|].
  destruct (earliest_rejection promises) as [[n' t']|]; [|done].
  by destruct (Nat.leb m n').
Qed.

Lemma earliest_rejection_strict {A} (before after : list (Promise Any A))
    promise t :
  outcome promise = Rejected t →
  Forall (λ other, match outcome other with
                   | Rejected _ => settles_at promise < settles_at other
                   | Fulfilled _ => True
                   end) (before ++ after) →
  earliest_rejection (before ++ promise :: after)
  = Some (settles_at promise, t).
Proof.
  intros Ht [Hbefore Hafter]%Forall_app.
  induction Hbefore as [|[m [a|t0]] before Hm _ IH]; cbn in *.
  - rewrite Ht.
    pose proof (earliest_rejection_later _ _ Hafter) as Hlater.
    destruct (earliest_rejection after) as [[n' t']|]; [|done].
    by destruct (Nat.leb_spec (settles_at promise) n'); [|lia].
  - done.
  - rewrite IH. by destruct (Nat.leb_spec m (settles_at promise)); [lia|].
Qed.

(** X9. When all the plugins of the first matching route are called and the
    promise of one of them rejects before any other rejection, the handler is
    not called and the response is made from that rejection, even if plugins
    declared earlier yielded a response; every plugin has been called. *)
Theorem plugin_rejection_ends_dispatch regs env request rest i r params
    (before after : list (Promise Any (PluginResult Any))) promise t :
  first_match match_ regs
    (Text.split "/" (pathname (new_URL (url request)))) request i r params →
  Forall2 (λ p promise, p env request = Normal promise) (reg_plugins r)
    (before ++ promise :: after) →
  outcome promise = Rejected t →
  Forall (λ other, match outcome other with
                   | Rejected _ => settles_at promise < settles_at other
                   | Fulfilled _ => True
                   end) (before ++ after) →
  handle new_URL (Router new_URL match_ regs) env request rest
  = (skipped_events request 0 (take i regs)
       ++ EvRoute i :: EvIn i EvMatch
            :: (EvIn i <$> (EvPlugin <$> seq 0 (length (reg_plugins r)))),
     Normal (on_error t)).
Proof.
  intros Hfirst Hcalls Ht Hothers.
  rewrite handle_unfold, Router_map. cbn zeta.
  rewrite (try_routes_first_match_exact _ 0 _ _ _ _ _ _ _ Hfirst).
  cbn zeta. rewrite (respond_promises _ _ _ _ _ _ _ Hcalls).
  unfold Promise_all.
  by rewrite (earliest_rejection_strict _ _ _ _ Ht Hothers).
Qed.

End RouterMore.

(** ** The response helpers *)

Module HelperFacts.
Import Helpers.

Section HelperFacts.
Context {Any J : Type}.
Variable construct :
  option (BodyInit Any) → ConstructorInit Any → Completion Any Response.
Variable JSON_stringify : J → Completion Any (option string).
Variable JSON_null : J.


End HelperFacts.

End HelperFacts.

(** ** The further theorems applied *)

Section AppliedMore.
Import Example MoreExamples.

Example crashing_dispatch :
  completion (dispatch [crashing] get_users_me)
  = Normal (new_Response (Some "boom") 500).
Proof. by vm_compute. Qed.

Example rejecting_dispatch :
  completion (dispatch [rejecting] get_users_me)
  = Normal (new_Response (Some "denied") 500).
Proof. by vm_compute. Qed.

Example ok_200 :
  Helpers.ok construct stringify None 200 (Some (Some 7)) None
  = Normal {| status := 200; headers := []; body := Some "7" |}.
Proof. by vm_compute. Qed.

Example empty_204 :
  Helpers.empty construct 204 None
  = Normal {| status := 204; headers := []; body := None |}.
Proof. by vm_compute. Qed.

Lemma no_match_dispatch_witness :
  (∀ r : Registration Any Env Rest, r ∈ [create] →
     structural_match Match.match_ r (segments_of get_users_me) get_users_me
     = None)
  ∧ dispatch [create] get_users_me
    = (skipped_events get_users_me 0 [create],
       Normal (new_Response None 500)).
Proof.
  assert (Hnone : ∀ r : Registration Any Env Rest, r ∈ [create] →
            structural_match Match.match_ r (segments_of get_users_me)
              get_users_me = None).
  { intros r Hr. apply list_elem_of_singleton in Hr. subst r.
    by vm_compute. }
  split; [exact Hnone|].
  exact (no_match_dispatch new_URL Match.match_ [create] 0 get_users_me tt
           Hnone).
Defined.

Lemma first_match_dispatch_witness :
  first_match Match.match_ [create; enriched] (segments_of get_users_42)
    get_users_42 1 enriched {[ "id" := "42" ]}
  ∧ dispatch [create; enriched] get_users_42
    = (skipped_events get_users_42 0 (take 1 [create; enriched])
         ++ EvRoute 1 :: EvIn 1 EvMatch
              :: (EvIn 1 <$> trace (respond new_URL (reg_plugins enriched)
                                      (reg_handler enriched)
                                      {[ "id" := "42" ]} 0 get_users_42 tt)),
       Normal (settle (completion
                 (respond new_URL (reg_plugins enriched)
                    (reg_handler enriched) {[ "id" := "42" ]} 0 get_users_42
                    tt)))).
Proof.
  assert (Hfirst : first_match Match.match_ [create; enriched]
                     (segments_of get_users_42) get_users_42 1 enriched
                     {[ "id" := "42" ]}).
  { split_and!; [reflexivity|by vm_compute|].
    intros [|j] r' Hj Hr'; [|lia]. injection Hr' as <-. by vm_compute. }
  split; [exact Hfirst|].
  exact (first_match_dispatch new_URL Match.match_ [create; enriched] 0
           get_users_42 tt 1 enriched {[ "id" := "42" ]} Hfirst).
Defined.

Lemma later_routes_irrelevant_witness :
  first_match Match.match_ [by_id] (segments_of get_users_me) get_users_me 0
    by_id {[ "id" := "me" ]}
  ∧ dispatch ([by_id] ++ [me; broken]) get_users_me
    = dispatch [by_id] get_users_me.
Proof.
  assert (Hfirst : first_match Match.match_ [by_id]
                     (segments_of get_users_me) get_users_me 0 by_id
                     {[ "id" := "me" ]}).
  { split_and!; [reflexivity|by vm_compute|]. intros j r' Hj. lia. }
  split; [exact Hfirst|].
  exact (later_routes_irrelevant new_URL Match.match_ [by_id] [me; broken] 0
           get_users_me tt 0 by_id {[ "id" := "me" ]} Hfirst).
Defined.

Lemma unmatched_prefix_transparent_witness :
  (∀ r : Registration Any Env Rest, r ∈ [create] →
     structural_match Match.match_ r (segments_of get_users_me) get_users_me
     = None)
  ∧ completion (dispatch ([create] ++ [by_id]) get_users_me)
    = completion (dispatch [by_id] get_users_me)
  ∧ ∃ others,
      trace (dispatch ([create] ++ [by_id]) get_users_me)
      = skipped_events get_users_me 0 [create] ++ others.
Proof.
  assert (Hnone : ∀ r : Registration Any Env Rest, r ∈ [create] →
            structural_match Match.match_ r (segments_of get_users_me)
              get_users_me = None).
  { intros r Hr. apply list_elem_of_singleton in Hr. subst r.
    by vm_compute. }
  split; [exact Hnone|].
  exact (unmatched_prefix_transparent new_URL Match.match_ [create] [by_id] 0
           get_users_me tt Hnone).
Defined.

Lemma plugins_all_called_witness :
  structural_match Match.match_ rejecting (segments_of get_users_me)
    get_users_me = Some ∅
  ∧ Forall2 (λ (p : Plugin Any Env) promise,
               p 0 get_users_me = Normal promise)
      (reg_plugins rejecting)
      [ {| settles_at := 1; outcome := Fulfilled (PResponse unauthorized) |};
        {| settles_at := 2; outcome := Rejected (ThrownError "denied") |};
        {| settles_at := 7; outcome := Rejected (ThrownError "late") |} ]
  ∧ ∃ tail,
      trace (route_of new_URL Match.match_ rejecting 0
               (segments_of get_users_me) get_users_me tt)
      = EvMatch :: (EvPlugin <$> seq 0 (length (reg_plugins rejecting)))
                     ++ tail
      ∧ (tail = [] ∨ ∃ context, tail = [EvHandler context]).
Proof.
  assert (Hmatch : structural_match Match.match_ rejecting
                     (segments_of get_users_me) get_users_me = Some ∅).
  { by vm_compute. }
  assert (Hcalls : Forall2 (λ (p : Plugin Any Env) promise,
                              p 0 get_users_me = Normal promise)
            (reg_plugins rejecting)
            [ {| settles_at := 1;
                 outcome := Fulfilled (PResponse unauthorized) |};
              {| settles_at := 2;
                 outcome := Rejected (ThrownError "denied") |};
              {| settles_at := 7;
                 outcome := Rejected (ThrownError "late") |} ]).
  { repeat constructor. }
  split_and!; [exact Hmatch|exact Hcalls|].
  exact (plugins_all_called new_URL Match.match_ rejecting 0
           (segments_of get_users_me) get_users_me tt ∅ _ Hmatch Hcalls).
Defined.

Lemma plugin_throw_ends_dispatch_witness :
  first_match Match.match_ [crashing] (segments_of get_users_me) get_users_me
    0 crashing ∅
  ∧ reg_plugins crashing
    = [fails 3 (ThrownError "slow")]
        ++ throws_now (ThrownError "boom") :: [yields 1 (PResponse forbidden)]
  ∧ Forall (λ q : Plugin Any Env, ∃ promise, q 0 get_users_me = Normal promise)
      [fails 3 (ThrownError "slow")]
  ∧ throws_now (ThrownError "boom") 0 get_users_me
    = Abrupt (ThrownError "boom")
  ∧ dispatch [crashing] get_users_me
    = (skipped_events get_users_me 0 (take 0 [crashing])
         ++ EvRoute 0 :: EvIn 0 EvMatch
              :: (EvIn 0 <$> (EvPlugin <$> seq 0 2)),
       Normal (on_error (Any:=Any) (ThrownError "boom"))).
Proof.
  assert (Hfirst : first_match Match.match_ [crashing]
                     (segments_of get_users_me) get_users_me 0 crashing ∅).
  { split_and!; [reflexivity|by vm_compute|]. intros j r' Hj. lia. }
  assert (Hbefore : Forall (λ q : Plugin Any Env,
                              ∃ promise, q 0 get_users_me = Normal promise)
                      [fails 3 (ThrownError "slow")]).
  { repeat constructor. by eexists. }
  split_and!; [exact Hfirst|reflexivity|exact Hbefore|reflexivity|].
  exact (plugin_throw_ends_dispatch new_URL Match.match_ [crashing] 0
           get_users_me tt 0 crashing ∅ [fails 3 (ThrownError "slow")]
           [yields 1 (PResponse forbidden)] (throws_now (ThrownError "boom"))
           (ThrownError "boom") Hfirst eq_refl Hbefore eq_refl).
Defined.

Lemma plugin_rejection_ends_dispatch_witness :
  let answered : Promise Any (PluginResult Any) :=
    {| settles_at := 1; outcome := Fulfilled (PResponse unauthorized) |} in
  let denied : Promise Any (PluginResult Any) :=
    {| settles_at := 2; outcome := Rejected (ThrownError "denied") |} in
  let late : Promise Any (PluginResult Any) :=
    {| settles_at := 7; outcome := Rejected (ThrownError "late") |} in
  first_match Match.match_ [rejecting] (segments_of get_users_me)
    get_users_me 0 rejecting ∅
  ∧ Forall2 (λ (p : Plugin Any Env) promise,
               p 0 get_users_me = Normal promise)
      (reg_plugins rejecting) ([answered] ++ denied :: [late])
  ∧ outcome denied = Rejected (ThrownError "denied")
  ∧ Forall (λ other : Promise Any (PluginResult Any),
              match outcome other with
              | Rejected _ => settles_at denied < settles_at other
              | Fulfilled _ => True
              end) ([answered] ++ [late])
  ∧ dispatch [rejecting] get_users_me
    = (skipped_events get_users_me 0 (take 0 [rejecting])
         ++ EvRoute 0 :: EvIn 0 EvMatch
              :: (EvIn 0 <$> (EvPlugin
                                <$> seq 0 (length (reg_plugins rejecting)))),
       Normal (on_error (Any:=Any) (ThrownError "denied"))).
Proof.
  intros answered denied late.
  assert (Hfirst : first_match Match.match_ [rejecting]
                     (segments_of get_users_me) get_users_me 0 rejecting ∅).
  { split_and!; [reflexivity|by vm_compute|]. intros j r' Hj. lia. }
  assert (Hcalls : Forall2 (λ (p : Plugin Any Env) promise,
                              p 0 get_users_me = Normal promise)
                     (reg_plugins rejecting)
                     ([answered] ++ denied :: [late])).
  { repeat constructor. }
  assert (Hothers : Forall (λ other : Promise Any (PluginResult Any),
                      match outcome other with
                      | Rejected _ => settles_at denied < settles_at other
                      | Fulfilled _ => True
                      end) ([answered] ++ [late])).
  { repeat constructor. }
  split_and!; [exact Hfirst|exact Hcalls|reflexivity|exact Hothers|].
  exact (plugin_rejection_ends_dispatch new_URL Match.match_ [rejecting] 0
           get_users_me tt 0 rejecting ∅ [answered] [late] denied
           (ThrownError "denied") Hfirst Hcalls eq_refl Hothers).
Defined.


End AppliedMore.
